(** * SJCast: discovery (monitor.py) and processing (process_videos.py)

    A shallow embedding of the two scripts of the repository and the
    properties of their new-item detection, title parsing, processing
    loop and feed ordering.

    Conventions of the embedding:
    - a Python [str] is the list of its code points ([pystr]);
    - a JSON object with fixed keys is a record, JSON [null]/[None] is
      [None] of an [option];
    - the files the scripts read and write are fields of a world record;
    - everything outside the scripts (YouTube, yt-dlp, mutagen, B2, the
      clock) is an oracle: a function of an external state that the
      scripts cannot inspect. *)

From Stdlib Require Import ZArith NArith Ascii String.
From stdpp Require Import base option list gmap sets sorting.

Set Default Proof Using "Type".
Open Scope N_scope.

(** ** Python strings *)

Abbreviation pystr := (list N).

(** An ASCII literal as a Python string. *)
Definition py (s : string) : pystr := N_of_ascii <$> list_ascii_of_string s.

(** [bool(s)] of a string: the empty string is falsy. *)
Definition str_truthy (s : pystr) : bool :=
  match s with [] => false | _ => true end.

(** [bool(o)] of a value that is a string or [None]. *)
Definition opt_truthy (o : option pystr) : bool :=
  match o with Some s => str_truthy s | None => false end.

(** [a < b] on strings: lexicographic on code points. *)
Fixpoint str_ltb (a b : pystr) : bool :=
  match a, b with
  | _, [] => false
  | [], _ :: _ => true
  | x :: a', y :: b' =>
      if x <? y then true else if y <? x then false else str_ltb a' b'
  end.

(** The character tables of the Python runtime.  [str.isspace], the
    regular-expression class [\s] and [str.strip] share one whitespace
    predicate; [\d] is the Unicode decimal-digit class.  Their values on
    ASCII are fixed below; their values on the other code points belong
    to the Unicode database of the runtime and are parameters. *)
Class Unicode := {
  nonascii_isspace : N → bool;
  nonascii_isdecimal : N → bool;
}.

Section Characters.
Context `{Unicode}.

(** Whitespace: tab, LF, VT, FF, CR, FS, GS, RS, US and space below 128. *)
Definition isspace (c : N) : bool :=
  if c <? 128 then
    ((9 <=? c) && (c <=? 13)) || ((28 <=? c) && (c <=? 32))
  else nonascii_isspace c.

(** Decimal digits: [0-9] below 128. *)
Definition isdecimal (c : N) : bool :=
  if c <? 128 then (48 <=? c) && (c <=? 57) else nonascii_isdecimal c.

(** [s.lstrip()], [s.rstrip()], [s.strip()] without arguments. *)
Fixpoint lstrip (s : pystr) : pystr :=
  match s with
  | c :: s' => if isspace c then lstrip s' else s
  | [] => []
  end.

Definition rstrip (s : pystr) : pystr := reverse (lstrip (reverse s)).

Definition strip (s : pystr) : pystr := rstrip (lstrip s).
End Characters.

(** ** The fragment of Python's [re] used by the scripts

    A pattern is a sequence of nodes; the matcher is the backtracking
    matcher of [re]: repetitions are greedy and give back one character
    at a time, [^] matches at position 0 only, [$] matches at the end of
    the string and before a newline that ends the string (no flags are
    passed, so neither MULTILINE nor DOTALL is on). *)
Module Re.

Inductive cclass :=
| CAny              (* .   any character but newline *)
| CSpace            (* \s  *)
| CDigit            (* \d  *)
| CLit (c : N).     (* a literal character *)

Inductive node :=
| Bol                   (* ^ *)
| Eol                   (* $ *)
| One (cl : cclass)     (* one character of the class *)
| Star (cl : cclass)    (* cl*, greedy *)
| Plus (cl : cclass)    (* cl+, greedy *)
| Open (g : nat)        (* ( of group g *)
| Close (g : nat).      (* ) of group g *)

Abbreviation pattern := (list node).

(** Spans of the groups: group ↦ (start, end) offsets in the subject. *)
Abbreviation groups := (gmap nat (nat * nat)).

Definition newline : N := 10.

Section Matcher.
Context `{Unicode}.

Definition cmatch (cl : cclass) (c : N) : bool :=
  match cl with
  | CAny => negb (c =? newline)
  | CSpace => isspace c
  | CDigit => isdecimal c
  | CLit d => c =? d
  end.

(** Greedy repetition: take one more character when possible and try
    the rest of the pattern; on failure give the character back. *)
Fixpoint star {R} (cl : cclass) (k : pystr → nat → option R)
    (s : pystr) (pos : nat) : option R :=
  match s with
  | c :: s' =>
      if cmatch cl c then
        match star cl k s' (S pos) with
        | Some r => Some r
        | None => k s pos
        end
      else k s pos
  | [] => k s pos
  end.

Definition close_group (pos : nat) (span : nat * nat) : nat * nat :=
  (span.1, pos).

(** [run re s pos caps]: match [re] against the rest [s] of the
    subject, which starts at offset [pos]. *)
Fixpoint run (re : pattern) (s : pystr) (pos : nat) (caps : groups)
    : option groups :=
  match re with
  | [] => Some caps
  | Bol :: re' =>
      if decide (pos = 0%nat) then run re' s pos caps else None
  | Eol :: re' =>
      match s with
      | [] => run re' s pos caps
      | [c] => if c =? newline then run re' s pos caps else None
      | _ => None
      end
  | One cl :: re' =>
      match s with
      | c :: s' => if cmatch cl c then run re' s' (S pos) caps else None
      | [] => None
      end
  | Star cl :: re' => star cl (λ s' pos', run re' s' pos' caps) s pos
  | Plus cl :: re' =>
      match s with
      | c :: s' =>
          if cmatch cl c
          then star cl (λ s' pos', run re' s' pos' caps) s' (S pos)
          else None
      | [] => None
      end
  | Open g :: re' => run re' s pos (<[g := (pos, pos)]> caps)
  | Close g :: re' => run re' s pos (alter (close_group pos) g caps)
  end.

(** [re.search]: the first offset at which the pattern matches. *)
Fixpoint search_from (re : pattern) (s : pystr) (pos : nat)
    : option groups :=
  match run re s pos ∅ with
  | Some caps => Some caps
  | None =>
      match s with
      | [] => None
      | _ :: s' => search_from re s' (S pos)
      end
  end.

Definition search (re : pattern) (subject : pystr) : option groups :=
  search_from re subject 0.
End Matcher.

(** [match.group(g)] on the subject of the search. *)
Definition group (subject : pystr) (caps : groups) (g : nat) : option pystr :=
  match caps !! g with
  | Some (a, b) => Some (take (b - a) (drop a subject))
  | None => None
  end.

Definition lit (s : string) : pattern := (λ c, One (CLit c)) <$> py s.

End Re.

(** The dict returned by [parse_case_info]. *)
Record CaseInfo := {
  case_name : pystr;
  docket : option pystr;
}.

(** One discovered upload, as [fetch_recent_uploads] builds it and as
    new_videos.json carries it to the processing script. *)
Record Video := {
  id : pystr;
  title : pystr;
  published_at : pystr;
  description : pystr;
}.

(** ** monitor.py *)
Module Monitor.

(** One element of ["items"] in the playlist response; only the fields of
    its snippet that the script reads.  ["description"] may be missing. *)
Record Item := {
  videoId : pystr;
  snippet_title : pystr;
  publishedAt : pystr;
  snippet_description : option pystr;
}.

(** The YouTube client: the items answered to a playlistItems request
    with the given [maxResults]; [None] when the request raises. *)
Abbreviation youtube_api := (Z → option (list Item)).

(** state.json *)
Record State := {
  seen_ids : list pystr;
  last_check : option pystr;
}.

(** The parsed command line. *)
Record Args := {
  arg_init : bool;
  arg_list : option Z;
  arg_json : bool;
  arg_all : bool;
}.

(** How the process ends: [sys.exit(code)] or falling off [main] (exit
    status 0), or an exception that nothing catches. *)
Inductive termination :=
| Exit (code : Z)
| Traceback.

(** The exit status the scheduler sees. *)
Definition exit_status (t : termination) : Z :=
  match t with Exit c => c | Traceback => 1%Z end.

(** What a run leaves behind: how it ended, state.json, and the videos
    printed as JSON on stdout (text for people is not modelled). *)
Record Run := {
  ended : termination;
  state_file : option State;
  stdout_json : option (list Video);
}.

(** [get_api_key]: the key, or [sys.exit(1)] when it is unset or empty. *)
Definition get_api_key (YOUTUBE_API_KEY : option pystr) : option pystr :=
  if opt_truthy YOUTUBE_API_KEY then YOUTUBE_API_KEY else None.

Definition load_state (file : option State) : State :=
  default {| seen_ids := []; last_check := None |} file.

Definition save_state (state : State) : option State := Some state.

Definition video_of_item (item : Item) : Video :=
  {| id := videoId item;
     title := snippet_title item;
     published_at := publishedAt item;
     description := take 200 (default [] (snippet_description item)) |}.

Definition fetch_recent_uploads (youtube : youtube_api) (max_results : Z)
    : option (list Video) :=
  match youtube (Z.min max_results 50) with
  | Some items => Some (video_of_item <$> items)
  | None => None
  end.

Section Parse.
Context `{Unicode}.

(** [r'^(.+),\s*(SJC-\d+)$'] *)
Definition pattern : Re.pattern :=
  [Re.Bol; Re.Open 1; Re.Plus Re.CAny; Re.Close 1]
  ++ Re.lit "," ++ [Re.Star Re.CSpace; Re.Open 2]
  ++ Re.lit "SJC-" ++ [Re.Plus Re.CDigit; Re.Close 2; Re.Eol].

Definition parse_case_info (title : pystr) : CaseInfo :=
  match Re.search pattern title with
  | Some m =>
      {| case_name := strip (default [] (Re.group title m 1));
         docket := Re.group title m 2 |}
  | None => {| case_name := title; docket := None |}
  end.
End Parse.

Definition check_for_new_videos (youtube : youtube_api) (state : State)
    : option (list Video) :=
  match fetch_recent_uploads youtube 50 with
  | Some recent =>
      let seen_ids : gset pystr := list_to_set (seen_ids state) in
      Some (filter (λ v, id v ∉ seen_ids) recent)
  | None => None
  end.

(** [if args.list:] is false for a missing option and for 0. *)
Definition list_requested (args : Args) : option Z :=
  match arg_list args with
  | Some n => if decide (n = 0%Z) then None else Some n
  | None => None
  end.

Definition nonempty {A} (l : list A) : bool :=
  match l with [] => false | _ => true end.

(** [0 if new_videos else 1] *)
Definition found_status (new_videos : list Video) : termination :=
  Exit (if nonempty new_videos then 0%Z else 1%Z).

(** [main], given the environment variable, the client, the clock
    reading of [datetime.utcnow().isoformat()], the command line and
    state.json. *)
Definition main (YOUTUBE_API_KEY : option pystr) (youtube : youtube_api)
    (now : pystr) (args : Args) (file : option State) : Run :=
  let crashed := {| ended := Traceback; state_file := file; stdout_json := None |} in
  match get_api_key YOUTUBE_API_KEY with
  | None => {| ended := Exit 1; state_file := file; stdout_json := None |}
  | Some api_key =>
    let state := load_state file in
    match list_requested args with
    | Some n =>
        (* --list mode: just show recent videos *)
        match fetch_recent_uploads youtube n with
        | None => crashed
        | Some videos =>
            {| ended := Exit 0; state_file := file;
               stdout_json := if arg_json args then Some videos else None |}
        end
    | None =>
      if arg_init args then
        (* --init mode: populate state without triggering downloads *)
        match fetch_recent_uploads youtube 50 with
        | None => crashed
        | Some videos =>
            let state := {| seen_ids := id <$> videos;
                            last_check := last_check state |} in
            let state := {| seen_ids := seen_ids state;
                            last_check := Some now |} in
            {| ended := Exit 0; state_file := save_state state;
               stdout_json := None |}
        end
      else
        match (if arg_all args then fetch_recent_uploads youtube 50
               else check_for_new_videos youtube state) with
        | None => crashed
        | Some new_videos =>
          if arg_json args then
            (* just output and exit; state is not updated here *)
            {| ended := found_status new_videos; state_file := file;
               stdout_json := Some new_videos |}
          else
            let state :=
              if nonempty new_videos
              then {| seen_ids := seen_ids state ++ (id <$> new_videos);
                      last_check := last_check state |}
              else state in
            let state := {| seen_ids := seen_ids state;
                            last_check := Some now |} in
            {| ended := found_status new_videos;
               state_file := save_state state; stdout_json := None |}
        end
    end
  end.

End Monitor.

(** ** process_videos.py *)
Module ProcessVideos.

(** One element of episodes.json. *)
Record Episode := {
  video_id : pystr;
  ep_title : pystr;
  ep_description : pystr;
  ep_published_at : pystr;
  audio_url : option pystr;
  file_size : N;
  processed_at : pystr;
}.

(** One entry of the feed, with the calls made on it by [generate_feed]. *)
Record FeedEntry := {
  fe_id : pystr;
  fe_title : pystr;
  fe_description : pystr;
  fe_published : pystr;
  fe_enclosure : option (pystr * N * pystr);
  fe_itunes_subtitle : option pystr;
}.

(** feed.xml: the channel fields, and the entries in the order in which
    the document lists them. *)
Record Feed := {
  feed_title : pystr;
  feed_description : pystr;
  feed_link : pystr;
  feed_language : pystr;
  feed_itunes_author : pystr;
  feed_itunes_category : pystr;
  feed_itunes_explicit : pystr;
  feed_itunes_image : option pystr;
  entries : list FeedEntry;
}.

(** The ID3 frames [tag_audio] adds. *)
Inductive Frame :=
| TIT2 (text : pystr)
| TPE1 (text : pystr)
| TALB (text : pystr)
| TCON (text : pystr)
| TDRC (text : pystr)
| COMM (lang desc text : pystr).

(** What is fixed when the script starts: which optional imports
    succeeded, and the environment variables it reads. *)
Record Config := {
  HAS_B2 : bool;
  HAS_MUTAGEN : bool;
  HAS_FEEDGEN : bool;
  B2_APPLICATION_KEY_ID : option pystr;
  B2_APPLICATION_KEY : option pystr;
  B2_BUCKET : option pystr;
  PODCAST_BASE_URL : option pystr;
}.

(** The tools and services the script calls, as oracles over an external
    state [E].
    - [yt_dlp video_id]: whether the return code is 0 ([None] when the
      tool cannot be started and [subprocess.run] raises), and the size
      of audio/<video_id>.mp3 if the tool left that file;
    - [mutagen_save frames size]: the size of the file after the tags are
      saved, or [None] when mutagen raises;
    - [b2_upload key_id app_key bucket remote_name size]: [false] when
      authorising, finding the bucket or uploading raises;
    - [utcnow]: [datetime.utcnow().isoformat()];
    - [feedgen_accepts entry]: whether feedgen takes the entry and
      writes it; [false] when it raises, as [published] does with a
      ValueError on a date that it cannot read or that names no
      timezone.  feedgen keeps no state: the answer depends on the entry
      alone. *)
Class External (E : Type) := {
  yt_dlp : pystr → E → option bool * option N * E;
  mutagen_save : list Frame → N → E → option N * E;
  b2_upload : pystr → pystr → pystr → pystr → N → E → bool * E;
  utcnow : E → pystr * E;
  feedgen_accepts : FeedEntry → bool;
}.

(** The files of the working directory and the external state.  An audio
    file audio/<id>.mp3 is keyed by its id and holds its size. *)
Record World (E : Type) := {
  new_videos_file : option (list Video);
  episodes_file : option (list Episode);
  feed_file : option Feed;
  audio : gmap pystr N;
  ext : E;
}.
Arguments new_videos_file {E} _.
Arguments episodes_file {E} _.
Arguments feed_file {E} _.
Arguments audio {E} _.
Arguments ext {E} _.

(** The result of a computation: a value, an exception that nothing in
    the script catches, or [sys.exit(code)]. *)
Inductive outcome (A : Type) :=
| Return (a : A)
| Raise
| SysExit (code : Z).
Arguments Return {A} a.
Arguments Raise {A}.
Arguments SysExit {A} code.

(** Computations of the script: state passing over the world. *)
Definition M (E A : Type) : Type := World E → outcome A * World E.

Definition ret {E A} (a : A) : M E A := λ w, (Return a, w).

Definition bind {E A B} (m : M E A) (f : A → M E B) : M E B := λ w,
  match m w with
  | (Return a, w') => f a w'
  | (Raise, w') => (Raise, w')
  | (SysExit c, w') => (SysExit c, w')
  end.

Definition raise {E A} : M E A := λ w, (Raise, w).

Definition sys_exit {E A} (code : Z) : M E A := λ w, (SysExit code, w).

Declare Scope py_scope.
Delimit Scope py_scope with py.
Notation "'let!' x ':=' m 'in' k" := (bind m (λ x, k))
  (at level 10, x name, m at level 100, k at level 200) : py_scope.
Notation "'do!' m 'in' k" := (bind m (λ _, k))
  (at level 10, m at level 100, k at level 200) : py_scope.
Open Scope py_scope.

(* Configuration *)
Definition PODCAST_TITLE : pystr := py "SJC Oral Arguments".
Definition PODCAST_DESCRIPTION : pystr :=
  py "Oral argument recordings from the Massachusetts Supreme Judicial Court".
Definition PODCAST_AUTHOR : pystr := py "Massachusetts Supreme Judicial Court".
Definition PODCAST_WEBSITE : pystr :=
  py "https://www.mass.gov/orgs/supreme-judicial-court".
Definition PODCAST_IMAGE : pystr := [].

Section Parse.
Context `{Unicode}.

(** [r'^(.+),\s*(SJC-\d+)$'] *)
Definition pattern : Re.pattern :=
  [Re.Bol; Re.Open 1; Re.Plus Re.CAny; Re.Close 1]
  ++ Re.lit "," ++ [Re.Star Re.CSpace; Re.Open 2]
  ++ Re.lit "SJC-" ++ [Re.Plus Re.CDigit; Re.Close 2; Re.Eol].

Definition parse_case_info (title : pystr) : CaseInfo :=
  match Re.search pattern title with
  | Some m =>
      {| case_name := strip (default [] (Re.group title m 1));
         docket := Re.group title m 2 |}
  | None => {| case_name := title; docket := None |}
  end.
End Parse.

(** [sorted(l, key=key, reverse=True)] on string keys: the stable sort
    into descending order.  An element goes in front of the first one
    whose key is not greater than its own, so equal keys keep the order
    of [l]. *)
Fixpoint insert_reverse {A} (key : A → pystr) (x : A) (l : list A) : list A :=
  match l with
  | [] => [x]
  | y :: l' =>
      if str_ltb (key x) (key y) then y :: insert_reverse key x l'
      else x :: l
  end.

Definition sorted_reverse {A} (key : A → pystr) (l : list A) : list A :=
  foldr (insert_reverse key) [] l.

Section Script.
Context `{Unicode} {E : Type} `{External E} (cfg : Config).

(** The file audio/<video_id>.mp3 exists. *)
Definition exists_audio (w : World E) (video_id : pystr) : bool :=
  bool_decide (is_Some (audio w !! video_id)).

(** [download_audio]: the path of the audio file (named by its id), or
    [None] when yt-dlp fails.  The sanitised title is computed and not
    used. *)
Definition download_audio (video_id title : pystr) : M E (option pystr) :=
  λ w,
  match audio w !! video_id with
  | Some _ => (Return (Some video_id), w)
  | None =>
      let '(returncode_0, written, e) := yt_dlp video_id (ext w) in
      let w' :=
        {| new_videos_file := new_videos_file w;
           episodes_file := episodes_file w;
           feed_file := feed_file w;
           audio := match written with
                    | Some size => <[video_id := size]> (audio w)
                    | None => audio w
                    end;
           ext := e |} in
      match returncode_0 with
      | Some true => (Return (Some video_id), w')
      | Some false => (Return None, w')
      | None => (Raise, w')
      end
  end.

(** The frames of [tag_audio], in the order they are added. *)
Definition frames (video_info : Video) : list Frame :=
  let case_info := parse_case_info (title video_info) in
  let pub_date := take 4 (published_at video_info) in
  [TIT2 (title video_info); TPE1 PODCAST_AUTHOR; TALB PODCAST_TITLE;
   TCON (py "Podcast")]
  ++ (if str_truthy pub_date then [TDRC pub_date] else [])
  ++ (match docket case_info with
      | Some d => if str_truthy d then [COMM (py "eng") (py "Docket") d] else []
      | None => []
      end).

Definition tag_audio (audio_path : pystr) (video_info : Video) : M E unit :=
  λ w,
  if negb (HAS_MUTAGEN cfg) then (Return (), w)
  else
    match audio w !! audio_path with
    | None => (Raise, w)
    | Some size =>
        let '(saved, e) := mutagen_save (frames video_info) size (ext w) in
        match saved with
        | Some size' =>
            (Return (),
             {| new_videos_file := new_videos_file w;
                episodes_file := episodes_file w;
                feed_file := feed_file w;
                audio := <[audio_path := size']> (audio w);
                ext := e |})
        | None =>
            (Raise,
             {| new_videos_file := new_videos_file w;
                episodes_file := episodes_file w;
                feed_file := feed_file w;
                audio := audio w;
                ext := e |})
        end
    end.

(** [audio_path.stat().st_size] *)
Definition stat_size (audio_path : pystr) : M E N := λ w,
  match audio w !! audio_path with
  | Some size => (Return size, w)
  | None => (Raise, w)
  end.

(** [audio_path.unlink()] *)
Definition unlink (audio_path : pystr) : M E unit := λ w,
  match audio w !! audio_path with
  | Some _ =>
      (Return (),
       {| new_videos_file := new_videos_file w;
          episodes_file := episodes_file w;
          feed_file := feed_file w;
          audio := delete audio_path (audio w);
          ext := ext w |})
  | None => (Raise, w)
  end.

Definition remote_name (video_id : pystr) : pystr :=
  py "episodes/" ++ video_id ++ py ".mp3".

(** [upload_to_b2]: the public URL, or [None] when the upload is skipped. *)
Definition upload_to_b2 (audio_path video_id : pystr) : M E (option pystr) :=
  λ w,
  if negb (HAS_B2 cfg) then (Return None, w)
  else
    let key_id := B2_APPLICATION_KEY_ID cfg in
    let app_key := B2_APPLICATION_KEY cfg in
    let bucket_name := default (py "sjc-podcast") (B2_BUCKET cfg) in
    match key_id, app_key with
    | Some key_id, Some app_key =>
        if str_truthy key_id && str_truthy app_key && str_truthy bucket_name
        then
          match audio w !! audio_path with
          | None => (Raise, w)
          | Some size =>
              let '(ok, e) :=
                b2_upload key_id app_key bucket_name (remote_name video_id)
                          size (ext w) in
              let w' :=
                {| new_videos_file := new_videos_file w;
                   episodes_file := episodes_file w;
                   feed_file := feed_file w;
                   audio := audio w;
                   ext := e |} in
              if ok then
                let base_url :=
                  default (py "https://f000.backblazeb2.com/file/sjc-podcast")
                          (PODCAST_BASE_URL cfg) in
                (Return (Some (base_url ++ py "/" ++ remote_name video_id)), w')
              else (Raise, w')
          end
        else (Return None, w)
    | _, _ => (Return None, w)
    end.

Definition now : M E pystr := λ w,
  let '(t, e) := utcnow (ext w) in
  (Return t,
   {| new_videos_file := new_videos_file w;
      episodes_file := episodes_file w;
      feed_file := feed_file w;
      audio := audio w;
      ext := e |}).

Definition load_episodes : M E (list Episode) := λ w,
  (Return (default [] (episodes_file w)), w).

Definition save_episodes (episodes : list Episode) : M E unit := λ w,
  (Return (),
   {| new_videos_file := new_videos_file w;
      episodes_file := Some episodes;
      feed_file := feed_file w;
      audio := audio w;
      ext := ext w |}).

(** The entry [generate_feed] adds for one episode. *)
Definition feed_entry (ep : Episode) : FeedEntry :=
  let case_info := parse_case_info (ep_title ep) in
  {| fe_id := video_id ep;
     fe_title := ep_title ep;
     fe_description := ep_description ep;
     fe_published := ep_published_at ep;
     fe_enclosure :=
       match audio_url ep with
       | Some url =>
           if str_truthy url then Some (url, file_size ep, py "audio/mpeg")
           else None
       | None => None
       end;
     fe_itunes_subtitle :=
       match docket case_info with
       | Some d => if str_truthy d then Some (py "Docket: " ++ d) else None
       | None => None
       end |}.

(** feedgen's [add_entry], called as the script calls it, without
    [order]: the new entry goes in front of the entries the feed has
    ([order='prepend'] is the default of the library). *)
Definition add_entry (fg : list FeedEntry) (fe : FeedEntry) : list FeedEntry :=
  fe :: fg.

(** The document [generate_feed] builds from the catalog: the episodes
    are sorted newest first and added one by one in that order. *)
Definition feed_of (episodes : list Episode) : Feed :=
  let sorted_episodes := sorted_reverse ep_published_at episodes in
  {| feed_title := PODCAST_TITLE;
     feed_description := PODCAST_DESCRIPTION;
     feed_link := PODCAST_WEBSITE;
     feed_language := py "en";
     feed_itunes_author := PODCAST_AUTHOR;
     feed_itunes_category := py "Government";
     feed_itunes_explicit := py "no";
     feed_itunes_image :=
       if str_truthy PODCAST_IMAGE then Some PODCAST_IMAGE else None;
     entries := foldl add_entry [] (feed_entry <$> sorted_episodes) |}.

(** [generate_feed]: builds the feed and has feedgen write feed.xml,
    unless feedgen is missing.  feedgen raises while the feed is built,
    before the file is opened, so an exception leaves feed.xml as it
    was. *)
Definition generate_feed (episodes : list Episode) : M E unit := λ w,
  if negb (HAS_FEEDGEN cfg) then (Return (), w)
  else
    let feed := feed_of episodes in
    if forallb feedgen_accepts (entries feed) then
      (Return (),
       {| new_videos_file := new_videos_file w;
          episodes_file := episodes_file w;
          feed_file := Some feed;
          audio := audio w;
          ext := ext w |})
    else (Raise, w).

(** [process_video]: the episode, or [None] when the download failed. *)
Definition process_video (video_info : Video) : M E (option Episode) :=
  let video_id := id video_info in
  let title := title video_info in
  let! audio_path := download_audio video_id title in
  match audio_path with
  | None => ret None
  | Some audio_path =>
      λ w,
      if negb (exists_audio w audio_path) then (Return None, w)
      else
        (do! tag_audio audio_path video_info in
         let! file_size := stat_size audio_path in
         let! audio_url := upload_to_b2 audio_path video_id in
         let! processed_at := now in
         let episode :=
           {| video_id := video_id;
              ep_title := title;
              ep_description := description video_info;
              ep_published_at := published_at video_info;
              audio_url := audio_url;
              file_size := file_size;
              processed_at := processed_at |} in
         do! (λ w,
              if opt_truthy audio_url && exists_audio w audio_path
              then unlink audio_path w else (Return (), w)) in
         ret (Some episode)) w
  end.

(** The loop of [main] over the new videos; [existing_ids] is built once
    before the loop. *)
Fixpoint process_all (existing_ids : gset pystr) (new_videos : list Video)
    (episodes : list Episode) : M E (list Episode) :=
  match new_videos with
  | [] => ret episodes
  | video :: rest =>
      if decide (id video ∈ existing_ids) then
        process_all existing_ids rest episodes
      else
        let! episode := process_video video in
        match episode with
        | Some episode => process_all existing_ids rest (episodes ++ [episode])
        | None => process_all existing_ids rest episodes
        end
  end.

Definition main : M E unit := λ w,
  match new_videos_file w with
  | None => (SysExit 0, w)
  | Some new_videos =>
      match new_videos with
      | [] => (SysExit 0, w)
      | _ =>
          (let! episodes := load_episodes in
           let existing_ids : gset pystr := list_to_set (video_id <$> episodes) in
           let! episodes := process_all existing_ids new_videos episodes in
           do! save_episodes episodes in
           generate_feed episodes) w
      end
  end.

End Script.
End ProcessVideos.

(** * Vocabulary of the statements *)

Import Re.

Section Shapes.
Context `{Unicode}.

(** Every character of [s] is in the class. *)
Definition all_in (cl : cclass) (s : pystr) : Prop :=
  Forall (λ c, cmatch cl c = true) s.

(** A continuation that fails on every input starting in the class: after
    a greedy repetition of the class it can only succeed at the longest
    repetition. *)
Definition rejects (cl : cclass) {R} (k : pystr → nat → option R) : Prop :=
  ∀ c s pos, cmatch cl c = true → k (c :: s) pos = None.

(** What follows [^(.+] in the pattern: [),\s*(SJC-\d+)$]. *)
Definition after_case : pattern :=
  [Close 1; One (CLit 44); Star CSpace; Open 2;
   One (CLit 83); One (CLit 74); One (CLit 67); One (CLit 45);
   Plus CDigit; Close 2; Eol].

Definition SJC : pystr := py "SJC-".

(** The spans of the two groups on a title [pre , ws SJC- ds ...]. *)
Definition spans (pre ws ds : pystr) : groups :=
  let a := (length pre + 1 + length ws)%nat in
  <[2%nat := (a, (a + 4 + length ds)%nat)]> (<[1%nat := (0%nat, length pre)]> ∅).

(** Whitespace [ws], digits [ds] and the end [nl] of a matching title. *)
Definition tail_ok (ws ds nl : pystr) : Prop :=
  Forall (λ c, isspace c = true) ws
  ∧ ds ≠ [] ∧ Forall (λ c, isdecimal c = true) ds
  ∧ (nl = [] ∨ nl = [newline]).

(** [title] is [pre , ws SJC- ds nl]: a non-empty case part without
    newline, a comma, any whitespace, the docket with at least one
    digit, and nothing or one newline after it. *)
Definition docket_shape (title pre ws ds nl : pystr) : Prop :=
  title = pre ++ (py ",") ++ ws ++ (py "SJC-") ++ ds ++ nl
  ∧ pre ≠ [] ∧ (newline ∉ pre)
  ∧ Forall (λ c, isspace c = true) ws
  ∧ ds ≠ [] ∧ Forall (λ c, isdecimal c = true) ds
  ∧ (nl = [] ∨ nl = [newline]).
End Shapes.

Section Order.
Context {A : Type} (key : A → pystr).

(** [a] may stand before [b] in descending order of the key. *)
Definition ge_key (a b : A) : Prop := str_ltb (key a) (key b) = false.
End Order.

Section Files.
Import ProcessVideos.
Context {E : Type}.

(** episodes.json as a list: [load_episodes] of the world. *)
Definition catalog (w : World E) : list Episode := default [] (episodes_file w).

(** The three JSON/XML files are the same in both worlds. *)
Definition same_files (w w' : World E) : Prop :=
  new_videos_file w' = new_videos_file w
  ∧ episodes_file w' = episodes_file w
  ∧ feed_file w' = feed_file w.

(** A computation that writes none of the three files, however it ends. *)
Definition keeps_files {A} (m : M E A) : Prop :=
  ∀ w o w', m w = (o, w') → same_files w w'.
End Files.

(** * Sample inputs *)

(** A runtime whose tables hold nothing outside ASCII.  The samples are
    ASCII, on which every runtime agrees. *)
Definition basic_latin : Unicode :=
  {| nonascii_isspace := λ _, false; nonascii_isdecimal := λ _, false |}.

(** An upload with the given id. *)
Definition upload (i : string) : Monitor.Item :=
  {| Monitor.videoId := py i;
     Monitor.snippet_title := py "Commonwealth v. X, SJC-13444";
     Monitor.publishedAt := py "2024-01-01T00:00:00Z";
     Monitor.snippet_description := None |}.

(** A channel that shows the uploads with these ids, whatever is asked. *)
Definition channel (ids : list string) : Monitor.youtube_api :=
  λ _, Some (upload <$> ids).

Definition api_key : option pystr := Some (py "key").

Definition check_args : Monitor.Args :=
  {| Monitor.arg_init := false; Monitor.arg_list := None;
     Monitor.arg_json := false; Monitor.arg_all := false |}.

Definition check_json_args : Monitor.Args :=
  {| Monitor.arg_init := false; Monitor.arg_list := None;
     Monitor.arg_json := true; Monitor.arg_all := false |}.

Definition init_args : Monitor.Args :=
  {| Monitor.arg_init := true; Monitor.arg_list := None;
     Monitor.arg_json := false; Monitor.arg_all := false |}.

Definition init_json_args : Monitor.Args :=
  {| Monitor.arg_init := true; Monitor.arg_list := None;
     Monitor.arg_json := true; Monitor.arg_all := false |}.

Definition seen (ids : list string) : Monitor.State :=
  {| Monitor.seen_ids := py <$> ids; Monitor.last_check := None |}.

Definition video (i : string) : Video :=
  {| id := py i;
     title := py "Commonwealth v. X, SJC-13444";
     published_at := py "2024-01-01T00:00:00Z";
     description := [] |}.

(** A feedgen that takes the entries whose date ends in [Z], as the
    dates of the YouTube API do, and raises on the others, as feedgen
    does on a date that names no timezone. *)
Definition dated_with_zone (fe : ProcessVideos.FeedEntry) : bool :=
  bool_decide (last (ProcessVideos.fe_published fe) = Some 90).

(** Tools that always work: yt-dlp leaves a file of 1000 bytes, the tags
    add 128 bytes, B2 accepts the upload. *)
Definition steady : ProcessVideos.External unit :=
  {| ProcessVideos.yt_dlp := λ _ e, (Some true, Some 1000, e);
     ProcessVideos.mutagen_save := λ _ size e, (Some (size + 128), e);
     ProcessVideos.b2_upload := λ _ _ _ _ _ e, (true, e);
     ProcessVideos.utcnow := λ e, (py "2024-05-01T00:00:00", e);
     ProcessVideos.feedgen_accepts := dated_with_zone |}.

(** A network that is down for the first download and up afterwards; the
    external state counts the calls of yt-dlp. *)
Definition flaky : ProcessVideos.External nat :=
  {| ProcessVideos.yt_dlp := λ _ calls,
       match calls with
       | O => (Some false, None, S calls)
       | S _ => (Some true, Some 1000, S calls)
       end;
     ProcessVideos.mutagen_save := λ _ size e, (Some (size + 128), e);
     ProcessVideos.b2_upload := λ _ _ _ _ _ e, (true, e);
     ProcessVideos.utcnow := λ e, (py "2024-05-01T00:00:00", e);
     ProcessVideos.feedgen_accepts := dated_with_zone |}.

(** mutagen and feedgen installed, b2sdk missing. *)
Definition cfg_local : ProcessVideos.Config :=
  {| ProcessVideos.HAS_B2 := false;
     ProcessVideos.HAS_MUTAGEN := true;
     ProcessVideos.HAS_FEEDGEN := true;
     ProcessVideos.B2_APPLICATION_KEY_ID := None;
     ProcessVideos.B2_APPLICATION_KEY := None;
     ProcessVideos.B2_BUCKET := None;
     ProcessVideos.PODCAST_BASE_URL := None |}.

(** Everything installed and the B2 credentials set. *)
Definition cfg_b2 : ProcessVideos.Config :=
  {| ProcessVideos.HAS_B2 := true;
     ProcessVideos.HAS_MUTAGEN := true;
     ProcessVideos.HAS_FEEDGEN := true;
     ProcessVideos.B2_APPLICATION_KEY_ID := Some (py "id");
     ProcessVideos.B2_APPLICATION_KEY := Some (py "secret");
     ProcessVideos.B2_BUCKET := None;
     ProcessVideos.PODCAST_BASE_URL := None |}.

(** A fresh working directory holding only new_videos.json. *)
Definition fresh {E} (new_videos : list Video) (e : E) : ProcessVideos.World E :=
  {| ProcessVideos.new_videos_file := Some new_videos;
     ProcessVideos.episodes_file := None;
     ProcessVideos.feed_file := None;
     ProcessVideos.audio := ∅;
     ProcessVideos.ext := e |}.

Definition episode_dated (i date : string) : ProcessVideos.Episode :=
  {| ProcessVideos.video_id := py i;
     ProcessVideos.ep_title := py "Annual State of the Judiciary";
     ProcessVideos.ep_description := [];
     ProcessVideos.ep_published_at := py date;
     ProcessVideos.audio_url := None;
     ProcessVideos.file_size := 0;
     ProcessVideos.processed_at := py "2024-05-01T00:00:00" |}.

(** * More vocabulary and sample inputs *)

Section Trim.
Context `{Unicode}.

(** Whitespace only. *)
Definition blank (s : pystr) : Prop := Forall (λ c, isspace c = true) s.

(** No whitespace at either end. *)
Definition trimmed (s : pystr) : Prop :=
  (∀ c, head s = Some c → isspace c = false)
  ∧ (∀ c, last s = Some c → isspace c = false).
End Trim.

(** The videos a check run ([all] false) or an all run reports, given
    the seen list and the answer [R] of the source. *)
Definition reported (all : bool) (old : list pystr) (R : list Video)
    : list Video :=
  if all then R else filter (λ v, id v ∉ old) R.

Section Effects.
Import ProcessVideos.
Context {E : Type}.

(** A computation that never ends in [sys.exit]. *)
Definition never_exits {A} (m : M E A) : Prop :=
  ∀ w c w', m w ≠ (SysExit c, w').


(** A computation that removes no audio file. *)
Definition keeps_audio {A} (m : M E A) : Prop :=
  ∀ w o w' k, m w = (o, w') → is_Some (audio w !! k) → is_Some (audio w' !! k).

(** The upload is attempted: b2sdk is there and the three settings are
    non-empty (the bucket has a default). *)
Definition b2_configured (cfg : Config) : bool :=
  HAS_B2 cfg && opt_truthy (B2_APPLICATION_KEY_ID cfg)
  && opt_truthy (B2_APPLICATION_KEY cfg)
  && str_truthy (default (py "sjc-podcast") (B2_BUCKET cfg)).

(** The URL [upload_to_b2] returns for a video. *)
Definition public_url (cfg : Config) (video_id : pystr) : pystr :=
  default (py "https://f000.backblazeb2.com/file/sjc-podcast")
          (PODCAST_BASE_URL cfg)
  ++ py "/episodes/" ++ video_id ++ py ".mp3".
End Effects.

(** Tools that work, except that mutagen raises when it saves. *)
Definition broken_tagger : ProcessVideos.External unit :=
  {| ProcessVideos.yt_dlp := λ _ e, (Some true, Some 1000, e);
     ProcessVideos.mutagen_save := λ _ _ e, (None, e);
     ProcessVideos.b2_upload := λ _ _ _ _ _ e, (true, e);
     ProcessVideos.utcnow := λ e, (py "2024-05-01T00:00:00", e);
     ProcessVideos.feedgen_accepts := dated_with_zone |}.

(** [--list n --init --json --all] *)
Definition list_args (n : Z) : Monitor.Args :=
  {| Monitor.arg_init := true; Monitor.arg_list := Some n;
     Monitor.arg_json := true; Monitor.arg_all := true |}.

Definition all_args : Monitor.Args :=
  {| Monitor.arg_init := false; Monitor.arg_list := None;
     Monitor.arg_json := false; Monitor.arg_all := true |}.


(** A working directory with new_videos.json and one audio file. *)
Definition with_audio (new_videos : list Video) (video_id : string) (size : N)
    : ProcessVideos.World unit :=
  {| ProcessVideos.new_videos_file := Some new_videos;
     ProcessVideos.episodes_file := None;
     ProcessVideos.feed_file := None;
     ProcessVideos.audio := {[ py video_id := size ]};
     ProcessVideos.ext := () |}.

(** * Facts about the strings *)

Lemma str_ltb_irrefl a : str_ltb a a = false.
Proof.
  induction a as [|x a IH]; simpl; [done|].
  by rewrite N.ltb_irrefl.
Qed.

Lemma str_ltb_asym a b : str_ltb a b = true → str_ltb b a = false.
Proof.
  revert b. induction a as [|x a IH]; intros [|y b]; simpl; try done.
  destruct (N.ltb_spec x y), (N.ltb_spec y x); try done; try lia. apply IH.
Qed.

(** [a >= b] and [b >= c] give [a >= c]. *)
Lemma str_ge_trans a b c :
  str_ltb a b = false → str_ltb b c = false → str_ltb a c = false.
Proof.
  revert b c. induction a as [|x a IH]; intros [|y b] [|z c]; simpl; try done.
  destruct (N.ltb_spec x y); [done|].
  destruct (N.ltb_spec y z); [done|].
  destruct (N.ltb_spec y x), (N.ltb_spec z y), (N.ltb_spec x z), (N.ltb_spec z x);
    try done; try lia.
  apply IH.
Qed.


(** Neither below the other: equal. *)
Lemma str_ltb_total a b :
  str_ltb a b = false → str_ltb b a = false → a = b.
Proof.
  revert b. induction a as [|x a IH]; intros [|y b]; simpl; try done.
  destruct (N.ltb_spec x y), (N.ltb_spec y x); try done.
  intros Hab Hba. f_equal; [lia|by apply IH].
Qed.


(** * [sorted(..., reverse=True)] *)

Section Sorted.
Import ProcessVideos.
Context {A : Type} (key : A → pystr).

Lemma insert_reverse_perm x l : insert_reverse key x l ≡ₚ x :: l.
Proof.
  induction l as [|y l IH]; simpl; [done|].
  destruct (str_ltb _ _); [|done].
  rewrite IH. apply Permutation_swap.
Qed.

Lemma sorted_reverse_perm l : sorted_reverse key l ≡ₚ l.
Proof.
  induction l as [|x l IH]; simpl; [done|].
  unfold sorted_reverse in *. simpl. rewrite insert_reverse_perm. by f_equiv.
Qed.


Lemma insert_reverse_sorted x l :
  StronglySorted (ge_key key) l →
  StronglySorted (ge_key key) (insert_reverse key x l).
Proof.
  induction 1 as [|y l Hl IH Hy]; simpl.
  - repeat constructor.
  - destruct (str_ltb (key x) (key y)) eqn:Hxy.
    + constructor; [done|].
      rewrite insert_reverse_perm. constructor; [|done].
      by apply str_ltb_asym.
    + constructor; [by constructor|].
      constructor; [done|].
      eapply Forall_impl; [exact Hy|]. intros z Hz.
      by eapply str_ge_trans.
Qed.

Lemma sorted_reverse_sorted l :
  StronglySorted (ge_key key) (sorted_reverse key l).
Proof.
  induction l as [|x l IH]; [constructor|].
  by apply insert_reverse_sorted.
Qed.

Lemma insert_reverse_stable k x l :
  filter (λ e, key e = k) (insert_reverse key x l)
  = filter (λ e, key e = k) (x :: l).
Proof.
  induction l as [|y l IH]; simpl; [done|].
  destruct (str_ltb (key x) (key y)) eqn:Hxy; [|done].
  rewrite (filter_cons _ y), IH, !(filter_cons _ x), !(filter_cons _ y).
  destruct (decide (key y = k)) as [Hy|], (decide (key x = k)) as [Hx|]; try done.
  rewrite Hx, Hy, str_ltb_irrefl in Hxy. done.
Qed.

Lemma sorted_reverse_stable k l :
  filter (λ e, key e = k) (sorted_reverse key l) = filter (λ e, key e = k) l.
Proof.
  induction l as [|x l IH]; [done|].
  unfold sorted_reverse in *. simpl.
  rewrite insert_reverse_stable, !filter_cons, IH. done.
Qed.


(** Two lists in descending order with the same elements under every
    key, in the same order, are equal: the result of a stable sort does
    not depend on the sorting algorithm. *)
Lemma stable_sorted_unique l1 l2 :
  StronglySorted (ge_key key) l1 → StronglySorted (ge_key key) l2 →
  (∀ k, filter (λ e, key e = k) l1 = filter (λ e, key e = k) l2) →
  l1 = l2.
Proof.
  intros Hs1. revert l2. induction Hs1 as [|x t1 Hs1 IH Hx]; intros l2 Hs2 Hf.
  - destruct l2 as [|y t2]; [done|].
    specialize (Hf (key y)). by rewrite filter_cons_True in Hf.
  - destruct Hs2 as [|y t2 Hs2 Hy].
    { specialize (Hf (key x)). by rewrite filter_cons_True in Hf. }
    assert (key x = key y) as Hk.
    { apply str_ltb_total.
      - assert (y ∈ x :: t1) as Hin.
        { eapply (list_elem_of_filter (λ e, key e = key y)).
          rewrite Hf, filter_cons_True by done. left. }
        apply elem_of_cons in Hin as [->|Hin]; [apply str_ltb_irrefl|].
        rewrite Forall_forall in Hx. by apply Hx.
      - assert (x ∈ y :: t2) as Hin.
        { eapply (list_elem_of_filter (λ e, key e = key x)).
          rewrite <- Hf, filter_cons_True by done. left. }
        apply elem_of_cons in Hin as [->|Hin]; [apply str_ltb_irrefl|].
        rewrite Forall_forall in Hy. by apply Hy. }
    pose proof (Hf (key x)) as Hhead.
    rewrite !filter_cons_True in Hhead by done.
    injection Hhead as <- Htail. f_equal. apply IH; [done|].
    intros k. specialize (Hf k). rewrite !filter_cons in Hf.
    destruct (decide (key x = k)); [by injection Hf|done].
Qed.

(** Whatever list a stable sort into descending order returns, it is
    [sorted_reverse]. *)
Lemma sorted_reverse_unique l l' :
  StronglySorted (ge_key key) l' →
  (∀ k, filter (λ e, key e = k) l' = filter (λ e, key e = k) l) →
  l' = sorted_reverse key l.
Proof.
  intros Hs Hf. apply stable_sorted_unique; [done|apply sorted_reverse_sorted|].
  intros k. by rewrite Hf, sorted_reverse_stable.
Qed.


End Sorted.

(** * Facts about the matcher *)

Section Matcher.
Context `{Unicode}.

Lemma star_sound {R} cl (k : pystr → nat → option R) s pos r :
  star cl k s pos = Some r →
  ∃ pre s', s = pre ++ s' ∧ all_in cl pre
    ∧ k s' (pos + length pre)%nat = Some r.
Proof.
  revert pos. induction s as [|c s IH]; intros pos; simpl.
  - intros Hk. exists [], []. split; [done|]. split; [constructor|].
    by rewrite Nat.add_0_r.
  - destruct (cmatch cl c) eqn:Hc.
    + destruct (star cl k s (S pos)) as [r'|] eqn:Hs.
      * intros [= ->]. apply IH in Hs as (pre & s' & -> & Hpre & Hk).
        exists (c :: pre), s'. split; [done|]. split; [by constructor|].
        simpl. by rewrite Nat.add_succ_r.
      * intros Hk. exists [], (c :: s). split; [done|]. split; [constructor|].
        by rewrite Nat.add_0_r.
    + intros Hk. exists [], (c :: s). split; [done|]. split; [constructor|].
      by rewrite Nat.add_0_r.
Qed.

Lemma star_complete {R} cl (k : pystr → nat → option R) pre s' pos r :
  all_in cl pre → k s' (pos + length pre)%nat = Some r →
  is_Some (star cl k (pre ++ s') pos).
Proof.
  intros Hpre. revert pos. induction Hpre as [|c pre Hc Hpre IH]; intros pos; simpl.
  - rewrite Nat.add_0_r. intros Hk. destruct s' as [|c s']; simpl; [by eauto|].
    destruct (cmatch cl c); [|by eauto].
    destruct (star cl k s' (S pos)); eauto.
  - rewrite Nat.add_succ_r. intros Hk. rewrite Hc.
    destruct (IH (S pos) Hk) as [r' ->]. eauto.
Qed.

Lemma star_greedy {R} cl (k : pystr → nat → option R) pre s' pos r :
  rejects cl k → all_in cl pre → k s' (pos + length pre)%nat = Some r →
  star cl k (pre ++ s') pos = Some r.
Proof.
  intros Hrej Hpre. revert pos. induction Hpre as [|c pre Hc Hpre IH]; intros pos; simpl.
  - rewrite Nat.add_0_r. intros Hk. destruct s' as [|c s']; simpl; [done|].
    destruct (cmatch cl c) eqn:Hc; [|done].
    by rewrite Hrej in Hk.
  - rewrite Nat.add_succ_r. intros Hk. rewrite Hc. by rewrite (IH (S pos) Hk).
Qed.

Lemma run_plus_sound cl re s pos caps r :
  run (Plus cl :: re) s pos caps = Some r →
  ∃ pre s', s = pre ++ s' ∧ pre ≠ [] ∧ all_in cl pre
    ∧ run re s' (pos + length pre)%nat caps = Some r.
Proof.
  simpl. destruct s as [|c s]; [done|]. destruct (cmatch cl c) eqn:Hc; [|done].
  intros (pre & s' & -> & Hpre & Hk)%star_sound.
  exists (c :: pre), s'. split; [done|]. split; [done|]. split; [by constructor|].
  simpl. by rewrite Nat.add_succ_r.
Qed.

Lemma run_plus_complete cl re pre s' pos caps r :
  pre ≠ [] → all_in cl pre →
  run re s' (pos + length pre)%nat caps = Some r →
  is_Some (run (Plus cl :: re) (pre ++ s') pos caps).
Proof.
  intros Hne Hpre Hk. destruct Hpre as [|c pre Hc Hpre]; [done|]. simpl.
  rewrite Hc. eapply star_complete; [done|].
  simpl in Hk. rewrite Nat.add_succ_r in Hk. exact Hk.
Qed.

Lemma run_plus_greedy cl re pre s' pos caps r :
  rejects cl (λ s pos, run re s pos caps) →
  pre ≠ [] → all_in cl pre →
  run re s' (pos + length pre)%nat caps = Some r →
  run (Plus cl :: re) (pre ++ s') pos caps = Some r.
Proof.
  intros Hrej Hne Hpre Hk. destruct Hpre as [|c pre Hc Hpre]; [done|]. simpl.
  rewrite Hc. apply (star_greedy cl _ pre s' (S pos) r Hrej Hpre).
  simpl in Hk. rewrite Nat.add_succ_r in Hk. exact Hk.
Qed.

Lemma run_star_greedy cl re pre s' pos caps r :
  rejects cl (λ s pos, run re s pos caps) →
  all_in cl pre →
  run re s' (pos + length pre)%nat caps = Some r →
  run (Star cl :: re) (pre ++ s') pos caps = Some r.
Proof.
  simpl. intros Hrej Hpre Hk.
  by apply (star_greedy cl (λ s pos, run re s pos caps)).
Qed.

(** Literal text. *)
Lemma run_chars_sound (cs : pystr) re s pos caps r :
  run (((λ c, One (CLit c)) <$> cs) ++ re) s pos caps = Some r →
  ∃ s', s = cs ++ s' ∧ run re s' (pos + length cs)%nat caps = Some r.
Proof.
  revert s pos. induction cs as [|c cs IH]; intros s pos; simpl.
  - rewrite Nat.add_0_r. eauto.
  - destruct s as [|d s]; [done|]. destruct (N.eqb_spec d c) as [->|]; [|done].
    intros (s' & -> & Hr)%IH. exists s'. split; [done|].
    by rewrite Nat.add_succ_r.
Qed.

Lemma run_chars (cs : pystr) re s' pos caps :
  run (((λ c, One (CLit c)) <$> cs) ++ re) (cs ++ s') pos caps
  = run re s' (pos + length cs)%nat caps.
Proof.
  revert pos. induction cs as [|c cs IH]; intros pos; simpl.
  - by rewrite Nat.add_0_r.
  - rewrite N.eqb_refl, IH. by rewrite Nat.add_succ_r.
Qed.


End Matcher.

(** * The docket pattern *)

Section Docket.
Context `{Unicode}.

Lemma pattern_eq :
  Monitor.pattern = Bol :: Open 1 :: Plus CAny :: after_case.
Proof. reflexivity. Qed.

Lemma rejects_space_S re caps :
  rejects CSpace (λ s pos, run (Open 2 :: One (CLit 83) :: re) s pos caps).
Proof.
  intros c s pos Hc. simpl in *.
  destruct (N.eqb_spec c 83) as [->|]; [|done].
  by vm_compute in Hc.
Qed.

Lemma rejects_digit_eol caps :
  rejects CDigit (λ s pos, run [Close 2; Eol] s pos caps).
Proof.
  intros c s pos Hc. simpl in *. destruct s; [|done].
  destruct (N.eqb_spec c newline) as [->|]; [|done].
  by vm_compute in Hc.
Qed.

Lemma after_case_sound s pos r :
  run after_case s pos (<[1%nat := (0%nat, 0%nat)]> ∅) = Some r →
  ∃ ws ds nl, s = 44 :: ws ++ SJC ++ ds ++ nl ∧ tail_ok ws ds nl.
Proof.
  unfold after_case. simpl run at 1.
  destruct s as [|c s]; [done|]. destruct (N.eqb_spec c 44) as [->|]; [|done].
  intros (ws & s1 & -> & Hws & Hr)%star_sound.
  change (run (((λ c, One (CLit c)) <$> SJC) ++ [Plus CDigit; Close 2; Eol])
            s1 (S pos + length ws)
            (<[2%nat := ((S pos + length ws)%nat, (S pos + length ws)%nat)]>
               (alter (close_group pos) 1%nat (<[1%nat:=(0%nat, 0%nat)]> ∅)))
          = Some r) in Hr.
  apply run_chars_sound in Hr as (s2 & -> & Hr).
  apply run_plus_sound in Hr as (ds & s3 & -> & Hne & Hds & Hr).
  exists ws, ds, s3. split; [done|]. split; [done|]. split; [done|].
  split; [done|]. simpl in Hr.
  destruct s3 as [|c [|??]]; [by left| |done].
  destruct (N.eqb_spec c newline) as [->|]; [by right|done].
Qed.

Lemma after_case_complete ws ds nl (pre : pystr) :
  tail_ok ws ds nl →
  run after_case (44 :: ws ++ SJC ++ ds ++ nl) (length pre)
      (<[1%nat := (0%nat, 0%nat)]> ∅)
  = Some (spans pre ws ds).
Proof.
  intros (Hws & Hne & Hds & Hnl). unfold after_case.
  change (run (Star CSpace :: Open 2 :: One (CLit 83) ::
                 [One (CLit 74); One (CLit 67); One (CLit 45);
                  Plus CDigit; Close 2; Eol])
            (ws ++ SJC ++ ds ++ nl) (S (length pre))
            (alter (close_group (length pre)) 1%nat (<[1%nat:=(0%nat, 0%nat)]> ∅))
          = Some (spans pre ws ds)).
  apply run_star_greedy; [apply rejects_space_S|done|].
  rewrite alter_insert_eq. unfold close_group. simpl fst.
  set (a := (S (length pre) + length ws)%nat).
  change (run (((λ c, One (CLit c)) <$> SJC) ++ [Plus CDigit; Close 2; Eol])
            (SJC ++ ds ++ nl) a
            (<[2%nat := (a, a)]> (<[1%nat := (0%nat, length pre)]> ∅))
          = Some (spans pre ws ds)).
  rewrite run_chars.
  apply run_plus_greedy; [apply rejects_digit_eol|done|done|].
  assert (run [Close 2; Eol] nl (a + length SJC + length ds)
            (<[2%nat := (a, a)]> (<[1%nat := (0%nat, length pre)]> ∅))
          = Some (alter (close_group (a + length SJC + length ds)) 2%nat
                    (<[2%nat := (a, a)]> (<[1%nat := (0%nat, length pre)]> ∅))))
    as ->.
  { by destruct Hnl as [-> | ->]. }
  rewrite alter_insert_eq. unfold spans, close_group. simpl fst.
  subst a. simpl length. do 3 f_equal; lia.
Qed.

Lemma search_from_later s pos :
  pos ≠ 0%nat → search_from Monitor.pattern s pos = None.
Proof.
  revert pos. induction s as [|c s IH]; intros pos Hpos; simpl.
  - by rewrite decide_False.
  - rewrite decide_False by done. by apply IH.
Qed.

Lemma search_start title :
  search Monitor.pattern title
  = run (Plus CAny :: after_case) title 0 (<[1%nat := (0%nat, 0%nat)]> ∅).
Proof.
  unfold search.
  assert (∀ s, run Monitor.pattern s 0 ∅
               = run (Plus CAny :: after_case) s 0 (<[1%nat := (0%nat, 0%nat)]> ∅))
    as Hrun by done.
  destruct title as [|c s]; unfold search_from; fold search_from; rewrite Hrun.
  - by destruct (run _ _ _ _).
  - rewrite search_from_later by done. by destruct (run _ _ _ _).
Qed.

Lemma all_in_any pre : all_in CAny pre ↔ newline ∉ pre.
Proof.
  unfold all_in. rewrite Forall_forall. split.
  - intros Hall Hin. specialize (Hall _ Hin). by vm_compute in Hall.
  - intros Hn c Hc. simpl. apply negb_true_iff.
    destruct (N.eqb_spec c newline) as [->|]; done.
Qed.

Lemma no_comma_after ws ds nl : tail_ok ws ds nl → 44 ∉ ws ++ SJC ++ ds ++ nl.
Proof.
  intros (Hws & _ & Hds & Hnl).
  rewrite !elem_of_app. intros [Hin|[Hin|[Hin|Hin]]].
  - rewrite Forall_forall in Hws. specialize (Hws _ Hin). by vm_compute in Hws.
  - change SJC with [83; 74; 67; 45] in Hin.
    repeat (apply elem_of_cons in Hin as [?|Hin]; [done|]).
    by apply elem_of_nil in Hin.
  - rewrite Forall_forall in Hds. specialize (Hds _ Hin). by vm_compute in Hds.
  - destruct Hnl as [-> | ->]; [by apply elem_of_nil in Hin|].
    by apply list_elem_of_singleton in Hin.
Qed.

(** A string splits in one way only at its last occurrence of [x]. *)
Lemma split_last_unique {A} (x : A) p1 r1 p2 r2 :
  p1 ++ x :: r1 = p2 ++ x :: r2 → x ∉ r1 → x ∉ r2 → p1 = p2 ∧ r1 = r2.
Proof.
  revert p2. induction p1 as [|a p1 IH]; intros [|b p2]; simpl.
  - by intros [= ->].
  - intros [= <- ->] Hn _. destruct Hn. apply elem_of_app. right. by left.
  - intros [= -> <-] _ Hn. destruct Hn. apply elem_of_app. right. by left.
  - intros [= <- Heq] H1 H2. destruct (IH _ Heq H1 H2) as [-> ->]. done.
Qed.

Lemma search_shape title pre ws ds nl :
  docket_shape title pre ws ds nl →
  search Monitor.pattern title = Some (spans pre ws ds).
Proof.
  intros (-> & Hne & Hnl & Hws & Hdne & Hds & Hend).
  assert (tail_ok ws ds nl) as Htail by done.
  pose proof (after_case_complete ws ds nl pre Htail) as Hk.
  rewrite search_start.
  change (py "," ++ ws ++ py "SJC-" ++ ds ++ nl) with (44 :: ws ++ SJC ++ ds ++ nl).
  destruct (run_plus_complete CAny after_case pre _ 0 _ _ Hne
              (proj2 (all_in_any pre) Hnl) Hk) as [r Hr].
  rewrite Hr. f_equal.
  apply run_plus_sound in Hr as (pre' & s' & Heq & _ & _ & Hr).
  pose proof Hr as (ws' & ds' & nl' & -> & Htail')%after_case_sound.
  apply split_last_unique in Heq as [<- Heq]; [|by apply no_comma_after..].
  rewrite <- Heq in Hr. change (0 + length pre)%nat with (length pre) in Hr.
  rewrite Hk in Hr. by injection Hr.
Qed.

Lemma search_Some title m :
  search Monitor.pattern title = Some m →
  ∃ pre ws ds nl, docket_shape title pre ws ds nl.
Proof.
  rewrite search_start.
  intros (pre & s & -> & Hne & Hpre & Hr)%run_plus_sound.
  apply after_case_sound in Hr as (ws & ds & nl & -> & Hws & Hdne & Hds & Hend).
  exists pre, ws, ds, nl. split; [done|]. split; [done|].
  split; [by apply all_in_any|]. done.
Qed.

Lemma group_case title pre ws ds nl :
  docket_shape title pre ws ds nl →
  group title (spans pre ws ds) 1 = Some pre.
Proof.
  intros (-> & _). unfold group, spans. simpl.
  rewrite lookup_insert_ne, lookup_insert_eq by done.
  by rewrite drop_0, Nat.sub_0_r, take_app_length.
Qed.

Lemma group_docket title pre ws ds nl :
  docket_shape title pre ws ds nl →
  group title (spans pre ws ds) 2 = Some (py "SJC-" ++ ds).
Proof.
  intros (-> & _). unfold group, spans. cbv zeta.
  rewrite lookup_insert_eq.
  change (py ",") with [44]. change (py "SJC-") with SJC.
  replace (pre ++ [44] ++ ws ++ SJC ++ ds ++ nl)
    with ((pre ++ [44] ++ ws) ++ (SJC ++ ds) ++ nl)
    by by rewrite <- !app_assoc.
  rewrite drop_app_length' by (rewrite !length_app; simpl; lia).
  rewrite take_app_length'; [done|]. rewrite length_app.
  change (length SJC) with 4%nat. lia.
Qed.


End Docket.

(** * monitor.py *)

Section Discovery.
Import Monitor.

Lemma filter_unseen (seen : list pystr) (R : list Video) :
  filter (λ v, id v ∉ (list_to_set seen : gset pystr)) R
  = filter (λ v, id v ∉ seen) R.
Proof.
  apply list_filter_iff. intros v. by rewrite elem_of_list_to_set.
Qed.

Lemma filter_none {A} (P : A → Prop) `{∀ x, Decision (P x)} (l : list A) :
  (∀ x, x ∈ l → ¬ P x) → filter P l = [].
Proof.
  induction l as [|x l IH]; intros Hl; [done|].
  rewrite filter_cons_False by (apply Hl; left).
  apply IH. intros y Hy. apply Hl. by right.
Qed.

Lemma filter_all_seen (R : list Video) :
  filter (λ v, id v ∉ (id <$> R)) R = [].
Proof.
  apply filter_none. intros v Hv Hn. apply Hn.
  by apply list_elem_of_fmap_2.
Qed.

Lemma check_after_seeing_all youtube R last :
  fetch_recent_uploads youtube 50 = Some R →
  check_for_new_videos youtube {| seen_ids := id <$> R; last_check := last |} = Some [].
Proof.
  intros HR. unfold check_for_new_videos. rewrite HR. simpl.
  by rewrite filter_unseen, filter_all_seen.
Qed.

Lemma ids_of_fetch youtube n R :
  fetch_recent_uploads youtube n = Some R →
  ∃ items, youtube (Z.min n 50) = Some items ∧ id <$> R = videoId <$> items.
Proof.
  unfold fetch_recent_uploads. destruct (youtube _) as [items|]; [|done].
  intros [= <-]. eexists. split; [done|].
  rewrite <- list_fmap_compose. done.
Qed.

Lemma NoDup_extend_unseen (old : list pystr) (R : list Video) :
  NoDup old → NoDup (id <$> R) →
  NoDup (old ++ (id <$> filter (λ v, id v ∉ old) R)).
Proof.
  intros Ho HR. apply NoDup_app. split; [done|]. split.
  - intros i Hi (v & -> & Hv)%list_elem_of_fmap.
    apply list_elem_of_filter in Hv as [Hn _]. done.
  - induction R as [|v R IH]; [constructor|].
    apply NoDup_cons in HR as [Hv HR]. rewrite filter_cons.
    destruct (decide _); [|by apply IH].
    rewrite fmap_cons. apply NoDup_cons. split; [|by apply IH].
    intros (x & Hx & Hin)%list_elem_of_fmap. apply Hv. rewrite Hx.
    apply list_elem_of_fmap_2. by apply list_elem_of_filter in Hin as [_ ?].
Qed.


End Discovery.

(** * process_videos.py *)

Section Processing.
Import ProcessVideos.
Context `{Unicode} {E : Type} `{External E} (cfg : Config).

Lemma same_files_refl (w : World E) : same_files w w.
Proof. done. Qed.

Lemma same_files_trans (w1 w2 w3 : World E) :
  same_files w1 w2 → same_files w2 w3 → same_files w1 w3.
Proof. intros (?&?&?) (?&?&?). repeat split; congruence. Qed.

Lemma keeps_ret {A} (a : A) : keeps_files (ret a : M E A).
Proof. intros w o w' [= <- <-]. done. Qed.

Lemma keeps_bind {A B} (m : M E A) (f : A → M E B) :
  keeps_files m → (∀ a, keeps_files (f a)) → keeps_files (bind m f).
Proof.
  intros Hm Hf w o w'. unfold bind.
  destruct (m w) as [[a| |c] w1] eqn:Hmw.
  - intros Hfa. eapply same_files_trans; [by eapply Hm|by eapply Hf].
  - intros [= <- <-]. by eapply Hm.
  - intros [= <- <-]. by eapply Hm.
Qed.

Lemma keeps_download video_id title : keeps_files (download_audio video_id title).
Proof.
  intros w o w'. unfold download_audio.
  destruct (audio w !! video_id); [by intros [= <- <-]|].
  destruct (yt_dlp _ _) as [[[[]|] written] e]; by intros [= <- <-].
Qed.

Lemma keeps_tag p v : keeps_files (tag_audio cfg p v).
Proof.
  intros w o w'. unfold tag_audio.
  destruct (negb _); [by intros [= <- <-]|].
  destruct (audio w !! p); [|by intros [= <- <-]].
  destruct (mutagen_save _ _ _) as [[size'|] e]; intros [= <- <-]; done.
Qed.

Lemma keeps_stat p : keeps_files (stat_size p : M E N).
Proof.
  intros w o w'. unfold stat_size.
  destruct (audio w !! p); intros [= <- <-]; done.
Qed.

Lemma keeps_unlink p : keeps_files (unlink p : M E unit).
Proof.
  intros w o w'. unfold unlink.
  destruct (audio w !! p); intros [= <- <-]; done.
Qed.

Lemma keeps_upload p i : keeps_files (upload_to_b2 cfg p i).
Proof.
  intros w o w'. unfold upload_to_b2.
  destruct (negb _); [by intros [= <- <-]|].
  destruct (B2_APPLICATION_KEY_ID cfg); [|by intros [= <- <-]].
  destruct (B2_APPLICATION_KEY cfg); [|by intros [= <- <-]].
  destruct (_ && _); [|by intros [= <- <-]].
  destruct (audio w !! p); [|by intros [= <- <-]].
  destruct (b2_upload _ _ _ _ _ _) as [[] e]; intros [= <- <-]; done.
Qed.

Lemma keeps_now : keeps_files now.
Proof.
  intros w o w'. unfold now. destruct (utcnow _). by intros [= <- <-].
Qed.

Lemma keeps_process_video v : keeps_files (process_video cfg v).
Proof.
  unfold process_video. apply keeps_bind; [apply keeps_download|].
  intros [p|]; [|apply keeps_ret].
  intros w o w'. destruct (negb _); [by intros [= <- <-]|].
  revert w o w'. 
  apply keeps_bind; [apply keeps_tag|intros _].
  apply keeps_bind; [apply keeps_stat|intros size].
  apply keeps_bind; [apply keeps_upload|intros url].
  apply keeps_bind; [apply keeps_now|intros t].
  apply keeps_bind; [|intros _; apply keeps_ret].
  intros w o w'. destruct (_ && _); [apply keeps_unlink|by intros [= <- <-]].
Qed.

Lemma keeps_process_all existing vs eps :
  keeps_files (process_all cfg existing vs eps).
Proof.
  revert eps. induction vs as [|v vs IH]; intros eps; simpl; [apply keeps_ret|].
  destruct (decide _); [apply IH|].
  apply keeps_bind; [apply keeps_process_video|].
  intros [ep|]; apply IH.
Qed.

Lemma process_all_skip existing vs eps w :
  (∀ v, v ∈ vs → id v ∈ existing) →
  process_all cfg existing vs eps w = (Return eps, w).
Proof.
  induction vs as [|v vs IH]; intros Hall; simpl; [done|].
  rewrite decide_True by (apply Hall; left).
  apply IH. intros x Hx. apply Hall. by right.
Qed.

Lemma bind_Return {A B} (m : M E A) (f : A → M E B) w b w' :
  bind m f w = (Return b, w') →
  ∃ a w1, m w = (Return a, w1) ∧ f a w1 = (Return b, w').
Proof.
  unfold bind. destruct (m w) as [[a| |c] w1]; [eauto|done|done].
Qed.

Lemma process_video_id v w ep w' :
  process_video cfg v w = (Return (Some ep), w') → video_id ep = id v.
Proof.
  unfold process_video. intros (p & w1 & _ & Hk)%bind_Return.
  destruct p as [p|]; [|done].
  destruct (negb _); [done|].
  apply bind_Return in Hk as (? & ? & _ & Hk).
  apply bind_Return in Hk as (? & ? & _ & Hk).
  apply bind_Return in Hk as (? & ? & _ & Hk).
  apply bind_Return in Hk as (? & ? & _ & Hk).
  apply bind_Return in Hk as (? & ? & _ & Hk).
  by injection Hk as <- _.
Qed.

Lemma process_all_appends existing vs eps w eps' w' :
  process_all cfg existing vs eps w = (Return eps', w') →
  ∃ added, eps' = eps ++ added
    ∧ (video_id <$> added) `sublist_of` (id <$> filter (λ v, id v ∉ existing) vs).
Proof.
  revert eps w. induction vs as [|v vs IH]; intros eps w; simpl.
  - intros [= <- <-]. exists []. by rewrite app_nil_r.
  - destruct (decide _) as [Hin|Hin].
    + intros Hr. apply IH in Hr as (added & -> & Hsub).
      exists added. split; [done|]. by rewrite filter_cons_False by tauto.
    + intros (ep & w1 & Hv & Hr)%bind_Return.
      rewrite filter_cons_True by done. rewrite fmap_cons.
      destruct ep as [ep|].
      * apply IH in Hr as (added & -> & Hsub).
        exists (ep :: added). split; [by rewrite <- app_assoc|].
        rewrite fmap_cons, (process_video_id _ _ _ _ Hv). by apply sublist_skip.
      * apply IH in Hr as (added & -> & Hsub).
        exists added. split; [done|]. by apply sublist_cons.
Qed.

Lemma main_eq w vs :
  new_videos_file w = Some vs → vs ≠ [] →
  main cfg w
  = (let! episodes :=
       process_all cfg (list_to_set (video_id <$> catalog w)) vs (catalog w) in
     do! save_episodes episodes in
     generate_feed cfg episodes) w.
Proof.
  intros Hf Hne. unfold main. rewrite Hf. by destruct vs.
Qed.

Lemma main_no_input w :
  new_videos_file w = None ∨ new_videos_file w = Some [] →
  main cfg w = (SysExit 0, w).
Proof. unfold main. by intros [-> | ->]. Qed.

Lemma main_cases (w : World E) :
  (∃ vs, new_videos_file w = Some vs ∧ vs ≠ [])
  ∨ (new_videos_file w = None ∨ new_videos_file w = Some []).
Proof.
  destruct (new_videos_file w) as [[|v vs]|]; eauto.
Qed.

Lemma main_Return w w' :
  main cfg w = (Return (), w') →
  ∃ vs eps wa,
    new_videos_file w = Some vs ∧ vs ≠ []
    ∧ process_all cfg (list_to_set (video_id <$> catalog w)) vs (catalog w) w
      = (Return eps, wa)
    ∧ w' = {| new_videos_file := new_videos_file wa;
              episodes_file := Some eps;
              feed_file := if HAS_FEEDGEN cfg then Some (feed_of eps)
                           else feed_file wa;
              audio := audio wa;
              ext := ext wa |}.
Proof.
  destruct (main_cases w) as [(vs & Hf & Hne)|Hno].
  2:{ by rewrite main_no_input. }
  rewrite (main_eq _ _ Hf Hne).
  intros (eps & wa & Hloop & Hk)%bind_Return.
  apply bind_Return in Hk as ([] & wb & [= <-] & Hk).
  exists vs, eps, wa. split; [done|]. split; [done|]. split; [done|].
  unfold generate_feed in Hk. destruct (HAS_FEEDGEN cfg); simpl in Hk.
  - destruct (forallb _ _); [by injection Hk as <-|done].
  - by injection Hk as <-.
Qed.

Lemma main_Return_accepted w w' :
  main cfg w = (Return (), w') → HAS_FEEDGEN cfg = true →
  forallb feedgen_accepts (entries (feed_of (catalog w'))) = true.
Proof.
  destruct (main_cases w) as [(vs & Hf & Hne)|Hno].
  2:{ by rewrite main_no_input. }
  rewrite (main_eq _ _ Hf Hne).
  intros (eps & wa & Hloop & Hk)%bind_Return Hfg.
  apply bind_Return in Hk as ([] & wb & [= <-] & Hk).
  unfold generate_feed in Hk. rewrite Hfg in Hk. simpl in Hk.
  destruct (forallb _ _) eqn:Hacc; [|done].
  injection Hk as <-. exact Hacc.
Qed.

(** A run that does not go through either stops before anything is
    saved, or raises in [generate_feed], after episodes.json has been
    rewritten. *)
Lemma main_other w o w' :
  main cfg w = (o, w') → o ≠ Return () →
  same_files w w'
  ∨ ∃ vs eps wa,
      o = Raise ∧ HAS_FEEDGEN cfg = true
      ∧ new_videos_file w = Some vs ∧ vs ≠ []
      ∧ process_all cfg (list_to_set (video_id <$> catalog w)) vs (catalog w) w
        = (Return eps, wa)
      ∧ forallb feedgen_accepts (entries (feed_of eps)) = false
      ∧ w' = {| new_videos_file := new_videos_file wa;
                episodes_file := Some eps;
                feed_file := feed_file wa;
                audio := audio wa;
                ext := ext wa |}.
Proof.
  destruct (main_cases w) as [(vs & Hf & Hne)|Hno].
  2:{ rewrite main_no_input by done. intros [= <- <-]. left.
      apply same_files_refl. }
  rewrite (main_eq _ _ Hf Hne). unfold bind at 1.
  destruct (process_all _ _ _ _ _) as [[eps| |c] wa] eqn:Hloop.
  - unfold bind, save_episodes, generate_feed. simpl.
    destruct (HAS_FEEDGEN cfg) eqn:Hfg; simpl.
    + destruct (forallb _ _) eqn:Hacc; intros [= <- <-] Ho; [by destruct Ho|].
      right. exists vs, eps, wa. done.
    + intros [= <- <-] Ho; by destruct Ho.
  - intros [= <- <-] _. left. by eapply keeps_process_all.
  - intros [= <- <-] _. left. by eapply keeps_process_all.
Qed.

(** Saving the catalog and writing the feed leave the audio files. *)
Lemma save_and_feed_keep_audio eps (w : World E) o w' :
  (do! save_episodes eps in generate_feed cfg eps) w = (o, w') →
  audio w' = audio w.
Proof.
  unfold bind, save_episodes, generate_feed. simpl.
  destruct (negb _); [by intros [= <- <-]|].
  destruct (forallb _ _); by intros [= <- <-].
Qed.

Lemma download_path video_id title w p w1 :
  download_audio video_id title w = (Return (Some p), w1) → p = video_id.
Proof.
  unfold download_audio. destruct (audio w !! video_id); [by intros [= <- _]|].
  destruct (yt_dlp _ _) as [[[[]|] written] e]; by intros [= <- _].
Qed.


Lemma upload_keeps_audio p i w o w' :
  upload_to_b2 cfg p i w = (o, w') → audio w' = audio w.
Proof.
  unfold upload_to_b2.
  destruct (negb _); [by intros [= <- <-]|].
  destruct (B2_APPLICATION_KEY_ID cfg); [|by intros [= <- <-]].
  destruct (B2_APPLICATION_KEY cfg); [|by intros [= <- <-]].
  destruct (_ && _); [|by intros [= <- <-]].
  destruct (audio w !! p); [|by intros [= <- <-]].
  destruct (b2_upload _ _ _ _ _ _) as [[] e]; by intros [= <- <-].
Qed.


Lemma now_keeps_audio (w : World E) o w' : now w = (o, w') → audio w' = audio w.
Proof. unfold now. destruct (utcnow _). by intros [= <- <-]. Qed.


Lemma unlink_removes p (w w' : World E) :
  unlink p w = (Return (), w') → exists_audio w' p = false.
Proof.
  unfold unlink, exists_audio. destruct (audio w !! p); [|done].
  intros [= <-]. simpl. apply bool_decide_eq_false.
  rewrite lookup_delete_eq. by intros [? ?].
Qed.

(** The steps behind an episode returned by [process_video]. *)
Lemma process_video_Some video w ep w' :
  process_video cfg video w = (Return (Some ep), w') →
  ∃ w1 w2 w3 w4,
    download_audio (id video) (title video) w = (Return (Some (id video)), w1)
    ∧ exists_audio w1 (id video) = true
    ∧ tag_audio cfg (id video) video w1 = (Return (), w2)
    ∧ upload_to_b2 cfg (id video) (id video) w2 = (Return (audio_url ep), w3)
    ∧ now w3 = (Return (processed_at ep), w4)
    ∧ video_id ep = id video
    ∧ audio w2 !! id video = Some (file_size ep)
    ∧ (if opt_truthy (audio_url ep) && exists_audio w4 (id video)
       then unlink (id video) w4 = (Return (), w') else w' = w4).
Proof.
  unfold process_video. intros (p & w1 & Hd & Hk)%bind_Return.
  destruct p as [p|]; [|done].
  pose proof (download_path _ _ _ _ _ Hd) as ->.
  destruct (negb _) eqn:Hex; [done|]. apply negb_false_iff in Hex.
  apply bind_Return in Hk as ([] & w2 & Ht & Hk).
  apply bind_Return in Hk as (size & w2' & Hs & Hk).
  apply bind_Return in Hk as (url & w3 & Hu & Hk).
  apply bind_Return in Hk as (t & w4 & Hn & Hk).
  apply bind_Return in Hk as ([] & w5 & Hun & Hk).
  injection Hk as <- <-. simpl.
  unfold stat_size in Hs. destruct (audio w2 !! id video) eqn:Hsz; [|done].
  injection Hs as <- <-.
  exists w1, w2, w3, w4. repeat split; try done.
  destruct (_ && _); [done|]. by injection Hun as <-.
Qed.


End Processing.

(** * Discovery: the claims on monitor.py *)

Section DiscoveryClaims.
Import Monitor.

(** C1.  For every state [S] and every answer [R] of the upload source,
    [check_for_new_videos] returns exactly the items of [R] whose id is
    not in [seen_ids S], in the order of [R]: the result is the filter of
    [R] by "id not in the seen list", hence a subsequence of [R] holding
    precisely the unseen items.  When the source raises, so does the
    check. *)
Theorem check_returns_unseen_in_order (youtube : youtube_api) (S : State) :
  match fetch_recent_uploads youtube 50 with
  | Some R =>
      ∃ new, check_for_new_videos youtube S = Some new
        ∧ new = filter (λ v, id v ∉ seen_ids S) R
        ∧ new `sublist_of` R
        ∧ ∀ v, v ∈ new ↔ v ∈ R ∧ id v ∉ seen_ids S
  | None => check_for_new_videos youtube S = None
  end.
Proof.
  unfold check_for_new_videos.
  destruct (fetch_recent_uploads youtube 50) as [R|]; [|done].
  eexists. split; [done|]. rewrite filter_unseen.
  split; [done|]. split; [apply sublist_filter|].
  intros v. rewrite list_elem_of_filter. tauto.
Qed.

(** C4, as stated, fails: an init run with the JSON flag writes
    state.json.  Here no state file exists before the run and one exists
    after it. *)
Lemma init_json_writes_state :
  arg_json init_json_args = true
  ∧ state_file (main api_key (channel ["a"]%string) (py "now") init_json_args None)
    ≠ None.
Proof. split; [reflexivity|]. vm_compute. discriminate. Qed.

(** C4, amended.  The state file is written only by runs that are not
    list runs and that are init runs or runs without the JSON flag; a
    JSON run that is not an init run never changes it; a JSON check or
    all run that prints no item ends with exit status 1; an init run
    that goes through stamps [last_check], with or without the JSON
    flag. *)
Theorem state_written_only_by_init_or_plain_runs key youtube now args file :
  let r := main key youtube now args file in
  (state_file r ≠ file →
     list_requested args = None ∧ (arg_init args = true ∨ arg_json args = false))
  ∧ (arg_json args = true → arg_init args = false → state_file r = file)
  ∧ (arg_json args = true → arg_init args = false → list_requested args = None →
     stdout_json r = Some [] → ended r = Exit 1)
  ∧ (arg_init args = true → list_requested args = None → ended r = Exit 0 →
     ∃ st, state_file r = Some st ∧ last_check st = Some now).
Proof.
  intros r. subst r. unfold main.
  destruct (get_api_key key) as [k|]; simpl.
  2:{ repeat split; try done. }
  destruct (list_requested args) as [n|] eqn:Hl.
  { destruct (fetch_recent_uploads youtube n); simpl; repeat split; done. }
  destruct (arg_init args) eqn:Hi.
  { destruct (fetch_recent_uploads youtube 50); simpl; repeat split; try done; eauto. }
  destruct (if arg_all args then _ else _) as [new|]; simpl.
  2:{ repeat split; done. }
  destruct (arg_json args) eqn:Hj; simpl.
  - repeat split; try done. intros _ _ _ [= ->]. done.
  - repeat split; try done. auto.
Qed.

(** A JSON check when every visible upload is already seen: the state
    file is untouched and the exit status is 1. *)
Lemma state_written_only_by_init_or_plain_runs_witness :
  let file := Some (seen ["a"]%string) in
  let r := main api_key (channel ["a"]%string) (py "now") check_json_args file in
  stdout_json r = Some [] ∧ state_file r = file ∧ ended r = Exit 1.
Proof.
  intros file r.
  destruct (state_written_only_by_init_or_plain_runs
              api_key (channel ["a"]%string) (py "now") check_json_args file)
    as (_ & Hkeep & Hexit & _).
  assert (stdout_json r = Some []) as Hout by reflexivity.
  split; [exact Hout|]. split.
  - apply Hkeep; reflexivity.
  - apply Hexit; [reflexivity..|exact Hout].
Defined.

(** C7, as stated, fails: an init run replaces the seen list.  The id
    ["a"] is in the list before the run and not after it. *)
Lemma init_forgets_seen_id :
  let before := seen ["a"]%string in
  let r := main api_key (channel ["b"]%string) (py "now") init_args (Some before) in
  py "a" ∈ seen_ids before
  ∧ ∃ after, state_file r = Some after ∧ py "a" ∉ seen_ids after.
Proof.
  split; [by left|]. eexists. split; [reflexivity|].
  vm_compute. by intros ?%list_elem_of_singleton.
Qed.

(** C7, amended.  A run that is not an init run never removes an id: the
    seen list after it is the one before it with ids added at the end.
    A check run keeps the list free of duplicates when the list and the
    ids of the answer of the source are.  An init run that goes through
    replaces the list by the ids of the answer. *)
Theorem seen_ids_after_run key youtube now args file :
  let r := main key youtube now args file in
  let old := seen_ids (load_state file) in
  let new := seen_ids (load_state (state_file r)) in
  (arg_init args = false ∨ list_requested args ≠ None →
     (∃ added, new = old ++ added)
     ∧ (arg_all args = false → NoDup old →
        (∀ items, youtube 50%Z = Some items → NoDup (videoId <$> items)) →
        NoDup new))
  ∧ (arg_init args = true → list_requested args = None → ended r = Exit 0 →
     ∃ items, youtube 50%Z = Some items ∧ new = videoId <$> items).
Proof.
  intros r old new. subst r old new. unfold main.
  destruct (get_api_key key) as [k|]; simpl.
  2:{ split; [|done]. intros _. split; [by exists []; rewrite app_nil_r|done]. }
  destruct (list_requested args) as [n|] eqn:Hl.
  { split; [|done]. intros _.
    destruct (fetch_recent_uploads youtube n); simpl;
      (split; [by exists []; rewrite app_nil_r|done]). }
  destruct (arg_init args) eqn:Hi.
  { split; [by intros [|]|]. intros _ _.
    destruct (fetch_recent_uploads youtube 50) as [R|] eqn:HR; simpl; [|done].
    intros _. apply ids_of_fetch in HR as (items & Hit & Hids).
    exists items. done. }
  split; [|done]. intros _.
  destruct (arg_all args) eqn:Ha.
  - destruct (fetch_recent_uploads youtube 50) as [R|]; simpl.
    2:{ split; [by exists []; rewrite app_nil_r|done]. }
    destruct (arg_json args); simpl.
    { split; [by exists []; rewrite app_nil_r|done]. }
    split; [|done]. destruct R; simpl; eauto. by exists []; rewrite app_nil_r.
  - unfold check_for_new_videos.
    destruct (fetch_recent_uploads youtube 50) as [R|] eqn:HR; simpl.
    2:{ split; [by exists []; rewrite app_nil_r|done]. }
    destruct (arg_json args); simpl.
    { split; [by exists []; rewrite app_nil_r|done]. }
    rewrite filter_unseen.
    apply ids_of_fetch in HR as (items & Hit & Hids).
    destruct (nonempty _) eqn:Hne; simpl.
    + split; [eauto|]. intros _ Hold Hresp.
      apply NoDup_extend_unseen; [done|]. rewrite Hids. by apply Hresp.
    + split; [by exists []; rewrite app_nil_r|done].
Qed.

(** A check that finds one new upload next to a seen one. *)
Lemma seen_ids_after_run_witness :
  let r := main api_key (channel ["a"; "b"]%string) (py "now") check_args
             (Some (seen ["a"]%string)) in
  NoDup (seen_ids (seen ["a"]%string))
  ∧ (∃ added, seen_ids (load_state (state_file r)) = [py "a"] ++ added)
  ∧ NoDup (seen_ids (load_state (state_file r))).
Proof.
  intros r.
  assert (NoDup [py "a"]) as Hold.
  { apply NoDup_singleton. }
  destruct (seen_ids_after_run api_key (channel ["a"; "b"]%string) (py "now")
              check_args (Some (seen ["a"]%string))) as [Hcheck _].
  destruct (Hcheck (or_introl eq_refl)) as [Hadded Hnodup].
  split; [exact Hold|]. split; [exact Hadded|].
  apply Hnodup; [reflexivity|exact Hold|].
  intros items [= <-]. apply NoDup_cons. split.
  - intros Hin%list_elem_of_singleton. discriminate Hin.
  - apply NoDup_singleton.
Defined.

(** C9.  An init run that goes through, followed by a check run against
    the same answer of the upload source, finds nothing new: the check
    returns the empty list, ends with exit status 1, and prints the
    empty list when the JSON flag is given. *)
Theorem init_then_check_finds_nothing key youtube now1 now2 args1 args2 file :
  let init_run := main key youtube now1 args1 file in
  let check_run := main key youtube now2 args2 (state_file init_run) in
  arg_init args1 = true → list_requested args1 = None →
  arg_init args2 = false → list_requested args2 = None → arg_all args2 = false →
  ended init_run = Exit 0 →
  check_for_new_videos youtube (load_state (state_file init_run)) = Some []
  ∧ ended check_run = Exit 1
  ∧ (arg_json args2 = true → stdout_json check_run = Some []).
Proof.
  intros init_run check_run Hi1 Hl1 Hi2 Hl2 Ha2.
  subst check_run init_run. unfold main.
  destruct (get_api_key key) as [k|]; simpl; [|done].
  rewrite Hl1, Hi1, Hl2, Hi2, Ha2.
  destruct (fetch_recent_uploads youtube 50) as [R|] eqn:HR; simpl; [|done].
  intros _. rewrite (check_after_seeing_all _ _ _ HR).
  split; [done|]. destruct (arg_json args2); simpl; auto.
  split; [done|]. done.
Qed.

(** Init on a channel with two uploads, then a check. *)
Lemma init_then_check_finds_nothing_witness :
  let init_run := main api_key (channel ["a"; "b"]%string) (py "t1") init_args None in
  let check_run :=
    main api_key (channel ["a"; "b"]%string) (py "t2") check_args (state_file init_run) in
  ended init_run = Exit 0 ∧ ended check_run = Exit 1.
Proof.
  intros init_run check_run.
  assert (ended init_run = Exit 0) as Hinit by reflexivity.
  split; [exact Hinit|].
  destruct (init_then_check_finds_nothing api_key (channel ["a"; "b"]%string)
              (py "t1") (py "t2") init_args check_args None
              eq_refl eq_refl eq_refl eq_refl eq_refl Hinit)
    as (_ & Hexit & _).
  exact Hexit.
Defined.

End DiscoveryClaims.

(** * Title parsing: the claims on [parse_case_info] *)

(** C6, as stated, fails: the pattern is not anchored to the very end of
    the string, since [$] also matches before a final newline.  This
    title ends in a newline, not in a digit, and the parser still
    extracts the docket. *)
Lemma newline_after_docket_still_matches :
  let title := py "A, SJC-1" ++ [newline] in
  last title = Some newline
  ∧ @isdecimal basic_latin newline = false
  ∧ (¬ ∃ case_part ds,
        title = case_part ++ py ", SJC-" ++ ds
        ∧ ds ≠ [] ∧ Forall (λ c, @isdecimal basic_latin c = true) ds)
  ∧ @Monitor.parse_case_info basic_latin title
    = {| case_name := py "A"; docket := Some (py "SJC-1") |}.
Proof.
  intros title. split; [reflexivity|]. split; [reflexivity|].
  split; [|reflexivity].
  intros (case_part & ds & Heq & Hne & Hds).
  assert (last title = last ds) as Hlast.
  { rewrite Heq. destruct ds as [|d ds] using rev_ind; [done|].
    by rewrite !app_assoc, !last_snoc. }
  destruct ds as [|d ds _] using rev_ind; [done|].
  rewrite last_snoc in Hlast. injection Hlast as <-.
  apply Forall_app in Hds as [_ Hd].
  inversion Hd as [|c l Hc _]. vm_compute in Hc. discriminate Hc.
Qed.

Section ParseClaims.
Context `{Unicode}.

(** C6, amended.  The parser matches the whole title against: a
    non-empty case part without newline, a comma, any run of whitespace
    (possibly none), [SJC-] and one or more decimal digits, up to the end
    of the string or to one newline that ends it.  On a match,
    [case_name] is the case part trimmed of surrounding whitespace and
    [docket] is [SJC-] with the digits; when the title has no such
    shape, [case_name] is the full title and [docket] is null.  The two
    titles of the specification parse as it says. *)
Theorem parse_case_info_shape title :
  (∀ pre ws ds nl, docket_shape title pre ws ds nl →
     Monitor.parse_case_info title
     = {| case_name := strip pre; docket := Some (py "SJC-" ++ ds) |})
  ∧ ((¬ ∃ pre ws ds nl, docket_shape title pre ws ds nl) →
     Monitor.parse_case_info title = {| case_name := title; docket := None |})
  ∧ Monitor.parse_case_info (py "Commonwealth v. X, SJC-13444")
    = {| case_name := py "Commonwealth v. X"; docket := Some (py "SJC-13444") |}
  ∧ Monitor.parse_case_info (py "Annual State of the Judiciary")
    = {| case_name := py "Annual State of the Judiciary"; docket := None |}.
Proof.
  split; [|split; [|split; reflexivity]].
  - intros pre ws ds nl Hshape. unfold Monitor.parse_case_info.
    rewrite (search_shape _ _ _ _ _ Hshape).
    by rewrite (group_case _ _ _ _ _ Hshape), (group_docket _ _ _ _ _ Hshape).
  - intros Hno. unfold Monitor.parse_case_info.
    destruct (search _ _) as [m|] eqn:Hs; [|done].
    destruct Hno. by eapply search_Some.
Qed.

(** C10.  The parser of monitor.py and the parser of process_videos.py
    return the same case name and docket on every title. *)
Theorem parsers_agree title :
  Monitor.parse_case_info title = ProcessVideos.parse_case_info title.
Proof. reflexivity. Qed.

End ParseClaims.

(** A title with two spaces after the comma and padding around the case
    name. *)
Lemma parse_case_info_shape_witness :
  let title := py " Doe v. Roe ,  SJC-007" in
  docket_shape (H:=basic_latin) title (py " Doe v. Roe ") (py "  ") (py "007") []
  ∧ @Monitor.parse_case_info basic_latin title
    = {| case_name := py "Doe v. Roe"; docket := Some (py "SJC-007") |}.
Proof.
  intros title.
  assert (docket_shape (H:=basic_latin) title (py " Doe v. Roe ") (py "  ")
            (py "007") []) as Hshape.
  { split; [reflexivity|]. split; [discriminate|]. split.
    { intros Hin. vm_compute in Hin.
      repeat (apply elem_of_cons in Hin as [Hin|Hin]; [discriminate Hin|]).
      by apply elem_of_nil in Hin. }
    split; [by repeat constructor|]. split; [discriminate|].
    split; [by repeat constructor|]. by left. }
  split; [exact Hshape|].
  destruct (parse_case_info_shape (H:=basic_latin) title) as [Hmatch _].
  exact (Hmatch _ _ _ _ Hshape).
Defined.

(** * Processing: the claims on process_videos.py *)

Section ProcessingClaims.
Import ProcessVideos.
Context `{Unicode} {E : Type} `{External E} (cfg : Config).

(** C2, amended.  A record whose id is in the loaded catalog is skipped
    by the loop: the world and the episodes are as if it were not in the
    list, so nothing is fetched, tagged or appended for it.  When a
    first run has gone through and every record of the input list has
    its id in the catalog that run saved, a second run on the same input
    list changes nothing: it goes through and leaves the catalog, the
    feed, the audio files and the external state as they were.  The
    first run does not touch the input list. *)
Theorem rerun_changes_nothing :
  (∀ existing video rest episodes (w : World E),
     id video ∈ existing →
     process_all cfg existing (video :: rest) episodes w
     = process_all cfg existing rest episodes w)
  ∧ (∀ w0 w1,
       main cfg w0 = (Return (), w1) →
       (∀ v, v ∈ default [] (new_videos_file w0) →
             id v ∈ video_id <$> catalog w1) →
       new_videos_file w1 = new_videos_file w0
       ∧ main cfg w1 = (Return (), w1)).
Proof.
  split.
  { intros existing video rest episodes w Hin. simpl.
    by rewrite decide_True. }
  intros w0 w1 Hrun Hall.
  pose proof (main_Return_accepted cfg _ _ Hrun) as Hacc.
  apply main_Return in Hrun as (vs & eps & wa & Hvs & Hne & Hloop & ->).
  unfold catalog in Hacc. simpl in Hacc.
  apply keeps_process_all in Hloop as (Hnv & _ & _).
  rewrite Hvs in Hall. simpl in Hall. unfold catalog in Hall. simpl in Hall.
  split; [done|].
  rewrite (main_eq cfg _ vs) by (simpl; congruence).
  unfold bind at 1. unfold catalog at 1 2. simpl.
  rewrite process_all_skip.
  2:{ intros x Hx. apply elem_of_list_to_set. by apply Hall. }
  unfold bind, save_episodes, generate_feed. simpl.
  destruct (HAS_FEEDGEN cfg); [|done]. simpl. by rewrite Hacc.
Qed.


Lemma foldl_add_entry (fg l : list FeedEntry) :
  foldl add_entry fg l = reverse l ++ fg.
Proof.
  revert fg. induction l as [|fe l IH]; intros fg; simpl; [done|].
  by rewrite IH, reverse_cons, <- app_assoc.
Qed.

Lemma feed_of_entries (episodes : list Episode) :
  entries (feed_of episodes)
  = reverse (feed_entry <$> sorted_reverse ep_published_at episodes).
Proof.
  unfold feed_of. cbn [entries]. by rewrite foldl_add_entry, app_nil_r.
Qed.

(** C5, which the code does not meet.  [generate_feed] sorts the
    episodes newest first and hands them to feedgen in that order, but
    [add_entry] puts each new entry in front of the earlier ones.  Read
    from its last entry to its first, the feed is the catalog in
    descending order of [published_at], episodes with the same date in
    catalog order; so feed.xml lists the oldest episode first and, among
    equal dates, the last of the catalog first.  [generate_feed] writes
    that feed when feedgen is there and takes every entry; when feedgen
    refuses an entry, it raises and feed.xml stays as it was.  Episodes
    dated 2024-01-01, 2024-03-01 and 2024-02-01 at midnight UTC come out
    as 01-01, 02-01, 03-01; with the same three dates written without a
    timezone, a feedgen that insists on one writes no feed at all. *)
Theorem feed_lists_oldest_first (episodes : list Episode) (w : World E) :
  (∃ sorted,
     reverse (entries (feed_of episodes)) = feed_entry <$> sorted
     ∧ sorted ≡ₚ episodes
     ∧ StronglySorted (ge_key ep_published_at) sorted
     ∧ ∀ date, filter (λ ep, ep_published_at ep = date) sorted
               = filter (λ ep, ep_published_at ep = date) episodes)
  ∧ generate_feed cfg episodes w
    = (if negb (HAS_FEEDGEN cfg) then (Return (), w)
       else if forallb feedgen_accepts (entries (feed_of episodes)) then
         (Return (),
          {| new_videos_file := new_videos_file w;
             episodes_file := episodes_file w;
             feed_file := Some (feed_of episodes);
             audio := audio w;
             ext := ext w |})
       else (Raise, w))
  ∧ (let dated := [episode_dated "a" "2024-01-01T00:00:00Z";
                   episode_dated "b" "2024-03-01T00:00:00Z";
                   episode_dated "c" "2024-02-01T00:00:00Z"] in
     fe_published <$> entries (feed_of dated)
     = [py "2024-01-01T00:00:00Z"; py "2024-02-01T00:00:00Z";
        py "2024-03-01T00:00:00Z"]
     ∧ fe_id <$> entries (feed_of dated) = [py "a"; py "c"; py "b"]
     ∧ @generate_feed basic_latin unit steady cfg_local dated (fresh [] ())
       = (Return (),
          {| new_videos_file := Some [];
             episodes_file := None;
             feed_file := Some (@feed_of basic_latin dated);
             audio := ∅;
             ext := () |}))
  ∧ @generate_feed basic_latin unit steady cfg_local
      [episode_dated "a" "2024-01-01";
       episode_dated "b" "2024-03-01";
       episode_dated "c" "2024-02-01"] (fresh [] ())
    = (Raise, fresh [] ()).
Proof.
  split; [|split; [|split]].
  - exists (sorted_reverse ep_published_at episodes).
    split; [by rewrite feed_of_entries, reverse_involutive|].
    split; [apply sorted_reverse_perm|].
    split; [apply sorted_reverse_sorted|].
    intros date; apply sorted_reverse_stable.
  - reflexivity.
  - split; [reflexivity|]. split; [reflexivity|]. reflexivity.
  - reflexivity.
Qed.

(** C8, amended.  When the ids of the input list are pairwise distinct
    and the video ids of the catalog are too, they still are after the
    run, however it ends; the catalog after the run is the one before it
    with episodes appended, none updated in place. *)
Theorem catalog_ids_stay_unique w o w' :
  (∀ vs, new_videos_file w = Some vs → NoDup (id <$> vs)) →
  NoDup (video_id <$> catalog w) →
  main cfg w = (o, w') →
  NoDup (video_id <$> catalog w')
  ∧ ∃ added, catalog w' = catalog w ++ added.
Proof.
  intros Hvs Hcat Hmain.
  assert (∀ vs eps wa nv feed au (e : E),
    new_videos_file w = Some vs →
    process_all cfg (list_to_set (video_id <$> catalog w)) vs (catalog w) w
    = (Return eps, wa) →
    let w1 := {| new_videos_file := nv; episodes_file := Some eps;
                 feed_file := feed; audio := au; ext := e |} in
    NoDup (video_id <$> catalog w1)
    ∧ ∃ added, catalog w1 = catalog w ++ added) as Hsaved.
  2:{ assert (o = Return () ∨ o ≠ Return ()) as [->|Ho]
        by (destruct o as [[]| |]; auto).
      - apply main_Return in Hmain as (vs & eps & wa & Hf & _ & Hloop & ->).
        by apply Hsaved with vs wa.
      - apply main_other in Hmain
          as [(_ & He & _)|(vs & eps & wa & _ & _ & Hf & _ & Hloop & _ & ->)];
          [| |done].
        + unfold catalog. rewrite He. split; [done|]. exists [].
          by rewrite app_nil_r.
        + by apply Hsaved with vs wa. }
  intros vs eps wa nv feed au e Hf Hloop w1. subst w1.
  - apply process_all_appends in Hloop as (added & -> & Hsub).
    unfold catalog at 1 3. simpl. split; [|eauto].
    rewrite fmap_app. apply NoDup_app. split; [done|].
    assert (NoDup (id <$> filter (λ v, id v ∉ (list_to_set (video_id <$> catalog w) : gset pystr)) vs)) as Hnd.
    { specialize (Hvs _ Hf). clear -Hvs. induction vs as [|v vs IH]; [constructor|].
      rewrite fmap_cons in Hvs. apply NoDup_cons in Hvs as [Hv Hvs].
      rewrite filter_cons. destruct (decide _); [|by apply IH].
      rewrite fmap_cons. apply NoDup_cons. split; [|by apply IH].
      intros (x & Hx & Hin)%list_elem_of_fmap. apply Hv. rewrite Hx.
      apply list_elem_of_fmap_2. by apply list_elem_of_filter in Hin as [_ ?]. }
    split.
    + intros i Hi Hi'. apply (sublist_subseteq _ _ Hsub) in Hi'.
      apply list_elem_of_fmap in Hi' as (v & -> & Hv).
      apply list_elem_of_filter in Hv as [Hn _]. apply Hn.
      by apply elem_of_list_to_set.
    + eapply sublist_NoDup; done.
Qed.

End ProcessingClaims.

(** * Processing: sample runs *)

Section ProcessingSamples.
Import ProcessVideos.

(** C2, as stated, fails: when the fetch of a record fails in the first
    run and succeeds in the second, the second run on the same input
    list adds an episode to the catalog the first run produced. *)
Lemma rerun_after_failed_fetch_adds_episode :
  let run := @main basic_latin nat flaky cfg_local in
  let w0 := fresh [video "a"] 0%nat in
  let w1 := (run w0).2 in
  let w2 := (run w1).2 in
  (run w0).1 = Return () ∧ (run w1).1 = Return ()
  ∧ new_videos_file w1 = new_videos_file w0
  ∧ catalog w1 = []
  ∧ video_id <$> catalog w2 = [py "a"]
  ∧ catalog w2 ≠ catalog w1.
Proof.
  vm_compute. repeat split; try reflexivity. discriminate.
Qed.

(** One record, fetched and kept in the first run, skipped in the
    second. *)
Lemma rerun_changes_nothing_witness :
  let run := @main basic_latin unit steady cfg_local in
  let w0 := fresh [video "a"] () in
  let w1 := (run w0).2 in
  run w0 = (Return (), w1) ∧ run w1 = (Return (), w1).
Proof.
  intros run w0 w1.
  assert (run w0 = (Return (), w1)) as Hfirst by (vm_compute; reflexivity).
  split; [exact Hfirst|].
  refine (proj2 (proj2 (@rerun_changes_nothing basic_latin unit steady
                          cfg_local) w0 w1 Hfirst _)).
  intros v Hv. apply list_elem_of_singleton in Hv. rewrite Hv.
  vm_compute. left.
Defined.


(** C8, as stated, fails: an input list that repeats an id yields two
    episodes with that id, because the ids to skip are collected once
    before the loop. *)
Lemma repeated_input_id_duplicates_episode :
  let run := @main basic_latin unit steady cfg_local in
  let w0 := fresh [video "a"; video "a"] () in
  let w1 := (run w0).2 in
  NoDup (video_id <$> catalog w0)
  ∧ (run w0).1 = Return ()
  ∧ video_id <$> catalog w1 = [py "a"; py "a"]
  ∧ ¬ NoDup (video_id <$> catalog w1).
Proof.
  intros run w0 w1.
  assert (video_id <$> catalog w1 = [py "a"; py "a"]) as Hids
    by (vm_compute; reflexivity).
  split; [constructor|]. split; [vm_compute; reflexivity|].
  split; [exact Hids|]. rewrite Hids.
  intros [Hin _]%NoDup_cons. apply Hin. by left.
Qed.

(** Two records with distinct ids into an empty catalog. *)
Lemma catalog_ids_stay_unique_witness :
  let run := @main basic_latin unit steady cfg_local in
  let w0 := fresh [video "a"; video "b"] () in
  NoDup (id <$> [video "a"; video "b"])
  ∧ NoDup (video_id <$> catalog w0)
  ∧ NoDup (video_id <$> catalog (run w0).2).
Proof.
  intros run w0.
  assert (NoDup (id <$> [video "a"; video "b"])) as Hin.
  { apply NoDup_cons. split.
    - intros Hx%list_elem_of_singleton. discriminate Hx.
    - apply NoDup_singleton. }
  assert (NoDup (video_id <$> catalog w0)) as Hcat by constructor.
  split; [exact Hin|]. split; [exact Hcat|].
  refine (proj1 (@catalog_ids_stay_unique basic_latin unit steady cfg_local
                   w0 (run w0).1 (run w0).2 _ Hcat _)).
  - intros vs Hvs. injection Hvs as <-. exact Hin.
  - apply surjective_pairing.
Defined.

End ProcessingSamples.

(** * More on monitor.py *)

Section DiscoveryMore.
Import Monitor.

Lemma video_of_item_description item :
  description (video_of_item item) `prefix_of` default [] (snippet_description item)
  ∧ length (description (video_of_item item))
    = (length (default [] (snippet_description item)) `min` 200)%nat.
Proof.
  simpl. split; [apply prefix_take|]. by rewrite length_take, Nat.min_comm.
Qed.

Lemma get_api_key_cases key :
  (opt_truthy key = true ∧ ∃ k, get_api_key key = Some k)
  ∨ (opt_truthy key = false ∧ get_api_key key = None).
Proof.
  unfold get_api_key. destruct (opt_truthy key) eqn:Hk; [|by right].
  left. split; [done|]. destruct key; [eauto|done].
Qed.

(** X1.  [fetch_recent_uploads] returns one video per item of the answer, in
    the same order: id, title and date are copied, and the description
    is the first 200 code points of the item's description, or empty
    when the item has none.  When the request raises, so does the
    fetch. *)
Theorem fetch_recent_uploads_shape youtube n :
  match youtube (Z.min n 50) with
  | Some items =>
      ∃ videos, fetch_recent_uploads youtube n = Some videos
        ∧ Forall2 (λ item v,
             id v = videoId item ∧ title v = snippet_title item
             ∧ published_at v = publishedAt item
             ∧ description v `prefix_of` default [] (snippet_description item)
             ∧ length (description v)
               = (length (default [] (snippet_description item)) `min` 200)%nat)
            items videos
  | None => fetch_recent_uploads youtube n = None
  end.
Proof.
  unfold fetch_recent_uploads. destruct (youtube _) as [items|]; [|done].
  eexists. split; [done|].
  induction items as [|item items IH]; simpl; [constructor|].
  constructor; [|exact IH].
  pose proof (video_of_item_description item) as [??]. done.
Qed.

(** X2.  A list request for more than 50 videos is a request for 50: the run
    is the same. *)
Theorem list_above_50_is_capped key youtube now args file n :
  (50 ≤ n)%Z →
  arg_list args = Some n →
  main key youtube now args file
  = main key youtube now
      {| arg_init := arg_init args; arg_list := Some 50%Z;
         arg_json := arg_json args; arg_all := arg_all args |} file.
Proof.
  intros Hn Hl. unfold main, list_requested. rewrite Hl. simpl.
  rewrite decide_False by lia. unfold fetch_recent_uploads.
  by rewrite (Z.min_r n 50) by lia.
Qed.

(** X3.  [--list 0] is not a list run: 0 is falsy, so the run is the one
    made without the list option, under the other flags given. *)
Theorem list_zero_is_a_check key youtube now args file :
  arg_list args = Some 0%Z →
  main key youtube now args file
  = main key youtube now
      {| arg_init := arg_init args; arg_list := None;
         arg_json := arg_json args; arg_all := arg_all args |} file.
Proof.
  intros Hl. unfold main, list_requested. rewrite Hl. done.
Qed.

(** X4.  A list run never writes state.json and ignores the init and all
    flags.  With a key, it ends with status 0 and prints the fetched
    videos under the JSON flag, or ends in a traceback when the request
    raises. *)
Theorem list_mode_only_reads key youtube now args file n :
  list_requested args = Some n →
  let r := main key youtube now args file in
  state_file r = file
  ∧ r = main key youtube now
          {| arg_init := false; arg_list := arg_list args;
             arg_json := arg_json args; arg_all := false |} file
  ∧ (opt_truthy key = true →
     match fetch_recent_uploads youtube n with
     | Some videos =>
         ended r = Exit 0
         ∧ stdout_json r = (if arg_json args then Some videos else None)
     | None => ended r = Traceback
     end).
Proof.
  intros Hl r. subst r. unfold main.
  assert (list_requested {| arg_init := false; arg_list := arg_list args;
             arg_json := arg_json args; arg_all := false |} = Some n) as ->
    by exact Hl.
  rewrite Hl.
  destruct (get_api_key_cases key) as [[-> [k ->]]|[-> ->]].
  - destruct (fetch_recent_uploads youtube n); simpl; auto.
  - repeat split; done.
Qed.

(** X5.  When the API key is unset or empty, or when the request the mode
    makes raises, the run ends with exit status 1, leaves state.json as
    it was and prints no JSON. *)
Theorem fatal_errors_leave_state key youtube now args file :
  opt_truthy key = false
  ∨ youtube (match list_requested args with
             | Some n => Z.min n 50 | None => 50%Z end) = None →
  let r := main key youtube now args file in
  exit_status (ended r) = 1%Z ∧ state_file r = file ∧ stdout_json r = None.
Proof.
  intros Hbad r. subst r. unfold main.
  destruct (get_api_key_cases key) as [[Hk [k ->]]|[Hk ->]]; [|done].
  destruct Hbad as [Hbad|Hapi]; [congruence|].
  unfold check_for_new_videos, fetch_recent_uploads.
  destruct (list_requested args) as [n|]; simpl in *.
  - by rewrite Hapi.
  - change (Z.min 50 50) with 50%Z. rewrite Hapi.
    by destruct (arg_init args), (arg_all args).
Qed.

Lemma filter_unseen_nil_iff (old : list pystr) (R : list Video) :
  filter (λ v, id v ∉ old) R = [] ↔ ∀ v, v ∈ R → id v ∈ old.
Proof.
  split.
  - intros Hnil v Hv. destruct (decide (id v ∈ old)) as [|Hn]; [done|].
    exfalso. eapply (filter_nil_not_elem_of (λ v, id v ∉ old)); done.
  - intros Hall. apply filter_none. intros v Hv Hn. by apply Hn, Hall.
Qed.

(** A check or all run that goes through: what it reports, how it ends
    and what it leaves in state.json. *)
Lemma check_or_all_run key youtube now args file R :
  opt_truthy key = true →
  list_requested args = None → arg_init args = false →
  fetch_recent_uploads youtube 50 = Some R →
  let old := seen_ids (load_state file) in
  let new := reported (arg_all args) old R in
  main key youtube now args file
  = if arg_json args then
      {| ended := found_status new; state_file := file;
         stdout_json := Some new |}
    else
      {| ended := found_status new;
         state_file := Some {| seen_ids := old ++ (id <$> new);
                               last_check := Some now |};
         stdout_json := None |}.
Proof.
  intros Hk Hl Hi HR old new. subst old new. unfold main.
  destruct (get_api_key_cases key) as [[_ [k ->]]|[Hk' _]]; [|congruence].
  rewrite Hl, Hi. unfold check_for_new_videos, reported. rewrite HR.
  destruct (arg_all args); simpl; rewrite ?filter_unseen;
    destruct (arg_json args); try done.
  - destruct R; simpl; [by rewrite app_nil_r|done].
  - destruct (filter _ R); simpl; [by rewrite app_nil_r|done].
Qed.

(** X6.  A check or all run without the JSON flag that goes through writes
    state.json: [last_check] is the time of the run and every id of the
    answer is in [seen_ids], so a check against the same answer then
    finds nothing. *)
Theorem plain_run_commits key youtube now args file R :
  opt_truthy key = true →
  list_requested args = None → arg_init args = false → arg_json args = false →
  fetch_recent_uploads youtube 50 = Some R →
  let r := main key youtube now args file in
  ∃ st, state_file r = Some st
    ∧ last_check st = Some now
    ∧ (∀ v, v ∈ R → id v ∈ seen_ids st)
    ∧ check_for_new_videos youtube st = Some [].
Proof.
  intros Hk Hl Hi Hj HR r. subst r.
  rewrite (check_or_all_run _ _ _ _ _ R) by done. rewrite Hj.
  eexists. split; [done|]. simpl. split; [done|].
  match goal with |- ?P ∧ _ => assert P as Hall end.
  { intros v Hv. apply elem_of_app.
    destruct (decide (id v ∈ seen_ids (load_state file))) as [|Hn]; [by left|].
    right. apply (list_elem_of_fmap_2 id). unfold reported.
    destruct (arg_all args); [done|]. by apply list_elem_of_filter. }
  split; [exact Hall|]. unfold check_for_new_videos. rewrite HR. simpl.
  rewrite filter_unseen. f_equal. by apply filter_unseen_nil_iff.
Qed.

(** X7.  An all run without the JSON flag appends the id of every video of
    the answer to [seen_ids], seen or not: an id that was seen and is
    still visible is then in the list twice. *)
Theorem plain_all_run_appends_all key youtube now args file R :
  opt_truthy key = true →
  list_requested args = None → arg_init args = false → arg_json args = false →
  arg_all args = true →
  fetch_recent_uploads youtube 50 = Some R →
  let old := seen_ids (load_state file) in
  let new := seen_ids (load_state (state_file (main key youtube now args file))) in
  new = old ++ (id <$> R)
  ∧ ((∃ v, v ∈ R ∧ id v ∈ old) → ¬ NoDup new).
Proof.
  intros Hk Hl Hi Hj Ha HR old new.
  assert (new = old ++ (id <$> R)) as Hnew.
  { subst new old. rewrite (check_or_all_run _ _ _ _ _ R) by done.
    by rewrite Hj, Ha. }
  split; [exact Hnew|]. intros (v & Hv & Hold). rewrite Hnew.
  intros (_ & Hdisj & _)%NoDup_app. apply (Hdisj _ Hold).
  by apply (list_elem_of_fmap_2 id).
Qed.

(** X8.  A check run that goes through, with or without the JSON flag, ends
    with status 0 when the answer has a video whose id is not seen and
    with status 1 when every id of the answer is seen; under the JSON
    flag it prints the unseen videos of the answer, in order. *)
Theorem check_exit_status key youtube now args file R :
  opt_truthy key = true →
  list_requested args = None → arg_init args = false → arg_all args = false →
  fetch_recent_uploads youtube 50 = Some R →
  let r := main key youtube now args file in
  let old := seen_ids (load_state file) in
  ((∃ v, v ∈ R ∧ id v ∉ old) → ended r = Exit 0)
  ∧ ((∀ v, v ∈ R → id v ∈ old) → ended r = Exit 1)
  ∧ (arg_json args = true →
     stdout_json r = Some (filter (λ v, id v ∉ old) R)).
Proof.
  intros Hk Hl Hi Ha HR r old. subst r old.
  rewrite (check_or_all_run _ _ _ _ _ R) by done. rewrite Ha. unfold reported.
  assert (∀ (j : bool) new st,
    ended (if j then {| ended := found_status new; state_file := file;
                        stdout_json := Some new |}
           else {| ended := found_status new; state_file := st;
                   stdout_json := None |}) = found_status new) as Hend
    by (by intros []).
  rewrite Hend. unfold found_status. split; [|split].
  - intros (v & Hv & Hn).
    destruct (filter _ R) eqn:Hf; [|done].
    exfalso. eapply (filter_nil_not_elem_of (λ v, id v ∉ seen_ids (load_state file))); done.
  - intros Hall. by rewrite (proj2 (filter_unseen_nil_iff _ _) Hall).
  - by intros ->.
Qed.

End DiscoveryMore.

(** * More on the title parser *)

Section Trimming.
Context `{Unicode}.

Lemma lstrip_split s : ∃ l, s = l ++ lstrip s ∧ blank l.
Proof.
  induction s as [|c s (l & Hs & Hl)]; simpl.
  - exists []. split; [done|constructor].
  - destruct (isspace c) eqn:Hc.
    + exists (c :: l). split; [by rewrite Hs at 1|by constructor].
    + exists []. split; [done|constructor].
Qed.

Lemma lstrip_head s c : head (lstrip s) = Some c → isspace c = false.
Proof.
  induction s as [|x s IH]; simpl; [done|].
  destruct (isspace x) eqn:Hx; [done|]. simpl. by intros [= <-].
Qed.

Lemma lstrip_fixed s :
  (∀ c, head s = Some c → isspace c = false) → lstrip s = s.
Proof.
  destruct s as [|x s]; [done|]. simpl. intros Hh. by rewrite (Hh x).
Qed.

Lemma strip_split s : ∃ l r, s = l ++ strip s ++ r ∧ blank l ∧ blank r.
Proof.
  unfold strip, rstrip.
  destruct (lstrip_split s) as (l & Hs & Hl).
  destruct (lstrip_split (reverse (lstrip s))) as (r & Hr & Hrb).
  exists l, (reverse r). split; [|split; [done|]].
  - rewrite Hs at 1. f_equal. rewrite <- reverse_app, <- Hr.
    by rewrite reverse_involutive.
  - unfold blank. by apply Forall_reverse.
Qed.

Lemma strip_trimmed s : trimmed (strip s).
Proof.
  unfold strip, rstrip. split.
  - intros c. rewrite head_reverse. intros Hlast.
    destruct (lstrip_split (reverse (lstrip s))) as (r & Hr & Hrb).
    apply last_Some in Hlast as [u Hu].
    apply (lstrip_head s). rewrite <- (reverse_involutive (lstrip s)), Hr, Hu.
    by rewrite !reverse_app.
  - intros c. rewrite last_reverse. apply lstrip_head.
Qed.

Lemma strip_fixed s : trimmed s → strip s = s.
Proof.
  intros [Hh Hl]. unfold strip, rstrip. rewrite (lstrip_fixed s Hh).
  rewrite lstrip_fixed; [apply reverse_involutive|].
  intros c. rewrite head_reverse. apply Hl.
Qed.

End Trimming.

Section ParseMore.
Context `{Unicode}.

(** What a docket in the result says about the title. *)
Lemma parse_docket_Some title d :
  docket (Monitor.parse_case_info title) = Some d →
  ∃ pre ws ds nl,
    docket_shape title pre ws ds nl
    ∧ Monitor.parse_case_info title
      = {| case_name := strip pre; docket := Some (py "SJC-" ++ ds) |}.
Proof.
  unfold Monitor.parse_case_info.
  destruct (search _ _) as [m|] eqn:Hs; [|done]. intros _.
  destruct (search_Some _ _ Hs) as (pre & ws & ds & nl & Hshape).
  exists pre, ws, ds, nl. split; [done|].
  rewrite (search_shape _ _ _ _ _ Hshape) in Hs. injection Hs as <-.
  by rewrite (group_case _ _ _ _ _ Hshape), (group_docket _ _ _ _ _ Hshape).
Qed.

Lemma parse_docket_None title :
  docket (Monitor.parse_case_info title) = None →
  Monitor.parse_case_info title = {| case_name := title; docket := None |}.
Proof.
  unfold Monitor.parse_case_info.
  destruct (search _ _) as [m|] eqn:Hs; [|done].
  destruct (search_Some _ _ Hs) as (pre & ws & ds & nl & Hshape).
  rewrite (search_shape _ _ _ _ _ Hshape) in Hs. injection Hs as <-.
  by rewrite (group_docket _ _ _ _ _ Hshape).
Qed.

(** X9.  A docket returned by the parser is [SJC-] followed by one or more
    decimal digits, and the title ends with it, or with it and one
    newline. *)
Theorem docket_format title d :
  docket (Monitor.parse_case_info title) = Some d →
  (∃ ds, d = py "SJC-" ++ ds ∧ ds ≠ []
         ∧ Forall (λ c, isdecimal c = true) ds)
  ∧ (d `suffix_of` title ∨ (d ++ [newline]) `suffix_of` title).
Proof.
  intros Hd.
  destruct (parse_docket_Some _ _ Hd) as (pre & ws & ds & nl & Hshape & Heq).
  rewrite Heq in Hd. injection Hd as <-.
  destruct Hshape as (-> & _ & _ & _ & Hne & Hds & Hnl).
  split; [by exists ds|].
  destruct Hnl as [-> | ->]; [left|right].
  - rewrite app_nil_r. exists (pre ++ py "," ++ ws). by rewrite <- !app_assoc.
  - exists (pre ++ py "," ++ ws). by rewrite <- !app_assoc.
Qed.

(** X10.  A title without a comma has no docket, and its case name is the
    title as it is, untrimmed. *)
Theorem title_without_comma_has_no_docket title :
  44 ∉ title →
  Monitor.parse_case_info title = {| case_name := title; docket := None |}.
Proof.
  intros Hno. apply parse_docket_None.
  destruct (docket _) as [d|] eqn:Hd; [|done].
  apply parse_docket_Some in Hd as (pre & ws & ds & nl & (-> & _) & _).
  destruct Hno. apply elem_of_app. right. by left.
Qed.

(** X11.  When a docket is found, the case name neither starts nor ends with
    whitespace and is a contiguous part of the title. *)
Theorem case_name_is_trimmed title d :
  docket (Monitor.parse_case_info title) = Some d →
  let name := case_name (Monitor.parse_case_info title) in
  (∀ c, head name = Some c → isspace c = false)
  ∧ (∀ c, last name = Some c → isspace c = false)
  ∧ ∃ before after, title = before ++ name ++ after.
Proof.
  intros (pre & ws & ds & nl & Hshape & ->)%parse_docket_Some name.
  subst name. simpl. destruct (strip_trimmed pre) as [Hh Hl].
  split; [exact Hh|]. split; [exact Hl|].
  destruct (strip_split pre) as (l & r & Hpre & _).
  destruct Hshape as (-> & _).
  exists l, (r ++ py "," ++ ws ++ py "SJC-" ++ ds ++ nl).
  rewrite Hpre at 1. by rewrite <- !app_assoc.
Qed.

(** X12.  When a docket is found and the case name is not empty, writing the
    result back as "case name, docket" and parsing again gives the same
    result. *)
Theorem parse_case_info_round_trip title d :
  docket (Monitor.parse_case_info title) = Some d →
  case_name (Monitor.parse_case_info title) ≠ [] →
  Monitor.parse_case_info
    (case_name (Monitor.parse_case_info title) ++ py ", " ++ d)
  = Monitor.parse_case_info title.
Proof.
  intros Hd.
  destruct (parse_docket_Some _ _ Hd) as (pre & ws & ds & nl & Hshape & Heq).
  assert (d = py "SJC-" ++ ds) as ->
    by (rewrite Heq in Hd; by injection Hd).
  rewrite Heq. cbn [case_name docket]. intros Hne.
  assert (docket_shape (strip pre ++ py ", " ++ py "SJC-" ++ ds)
            (strip pre) [32] ds []) as Hshape'.
  { destruct Hshape as (_ & _ & Hnl & _ & Hdne & Hds & _).
    split; [by rewrite app_nil_r|]. split; [done|]. split.
    { intros Hin. apply Hnl. destruct (strip_split pre) as (l & r & Hpre & _).
      rewrite Hpre. apply elem_of_app. right. apply elem_of_app. by left. }
    split; [by repeat constructor|]. split; [done|]. split; [done|by left]. }
  unfold Monitor.parse_case_info at 1.
  rewrite (search_shape _ _ _ _ _ Hshape').
  rewrite (group_case _ _ _ _ _ Hshape'), (group_docket _ _ _ _ _ Hshape').
  change (default [] (Some (strip pre))) with (strip pre).
  by rewrite (strip_fixed _ (strip_trimmed pre)).
Qed.

(** X13.  A newline anywhere before the last comma of a title prevents a
    match: the result has no docket and the title as case name. *)
Theorem newline_before_last_comma_blocks_match before after :
  44 ∈ after →
  Monitor.parse_case_info (before ++ newline :: after)
  = {| case_name := before ++ newline :: after; docket := None |}.
Proof.
  intros Hcomma. apply parse_docket_None.
  destruct (docket _) as [d|] eqn:Hd; [|done]. exfalso.
  apply parse_docket_Some in Hd as (pre & ws & ds & nl & Hshape & _).
  destruct Hshape as (Heq & _ & Hnl & Hws & Hdne & Hds & Hend).
  apply list_elem_of_split_r in Hcomma as (a1 & a2 & -> & Hlast).
  change (py "," ++ ws ++ py "SJC-" ++ ds ++ nl)
    with (44 :: ws ++ SJC ++ ds ++ nl) in Heq.
  replace (before ++ newline :: a1 ++ 44 :: a2)
    with ((before ++ newline :: a1) ++ 44 :: a2) in Heq
    by by rewrite <- app_assoc.
  apply split_last_unique in Heq as [<- _]; [|done|by apply no_comma_after].
  apply Hnl. apply elem_of_app. right. by left.
Qed.

End ParseMore.

(** * More on process_videos.py *)

Section ProcessingMore.
Import ProcessVideos.
Context `{Unicode} {E : Type} `{External E} (cfg : Config).

Lemma bind_cases {A B} (m : M E A) (f : A → M E B) w o w' :
  bind m f w = (o, w') →
  (∃ a w1, m w = (Return a, w1) ∧ f a w1 = (o, w'))
  ∨ (m w = (Raise, w') ∧ o = Raise)
  ∨ (∃ c, m w = (SysExit c, w') ∧ o = SysExit c).
Proof.
  unfold bind. destruct (m w) as [[a| |c] w1].
  - eauto.
  - intros [= <- <-]. eauto.
  - intros [= <- <-]. eauto.
Qed.

Lemma never_exits_bind {A B} (m : M E A) (f : A → M E B) :
  never_exits m → (∀ a, never_exits (f a)) → never_exits (bind m f).
Proof.
  intros Hm Hf w c w' Hb.
  apply bind_cases in Hb as [(a & w1 & _ & Hfa)|[[_ ?]|(c' & Hmw & _)]].
  - by eapply Hf.
  - done.
  - by eapply Hm.
Qed.

Lemma never_exits_ret {A} (a : A) : never_exits (ret a : M E A).
Proof. by intros w c w'. Qed.

Lemma never_exits_process_video v : never_exits (process_video cfg v).
Proof.
  unfold process_video. apply never_exits_bind.
  { intros w c w'. unfold download_audio.
    destruct (audio w !! id v); [done|].
    by destruct (yt_dlp _ _) as [[[[]|] written] e]. }
  intros [p|]; [|apply never_exits_ret].
  intros w c w'. destruct (negb _); [done|]. revert w c w'.
  apply never_exits_bind.
  { intros w c w'. unfold tag_audio. destruct (negb _); [done|].
    destruct (audio w !! p); [|done].
    by destruct (mutagen_save _ _ _) as [[size'|] e]. }
  intros _. apply never_exits_bind.
  { intros w c w'. unfold stat_size. by destruct (audio w !! p). }
  intros size. apply never_exits_bind.
  { intros w c w'. unfold upload_to_b2. destruct (negb _); [done|].
    destruct (B2_APPLICATION_KEY_ID cfg); [|done].
    destruct (B2_APPLICATION_KEY cfg); [|done].
    destruct (_ && _); [|done].
    destruct (audio w !! p); [|done].
    by destruct (b2_upload _ _ _ _ _ _) as [[] e]. }
  intros url. apply never_exits_bind.
  { intros w c w'. unfold now. by destruct (utcnow _). }
  intros t. apply never_exits_bind; [|intros _; apply never_exits_ret].
  intros w c w'. destruct (_ && _); [|done].
  unfold unlink. by destruct (audio w !! p).
Qed.

Lemma never_exits_process_all existing vs eps :
  never_exits (process_all cfg existing vs eps).
Proof.
  revert eps. induction vs as [|v vs IH]; intros eps; simpl.
  - apply never_exits_ret.
  - destruct (decide _); [apply IH|].
    apply never_exits_bind; [apply never_exits_process_video|].
    intros [ep|]; apply IH.
Qed.

(** X14.  The processing script ends in [sys.exit] exactly when
    new_videos.json is missing or holds an empty list; the code is 0 and
    nothing is read, fetched or written. *)
Theorem main_exits_only_without_input (w : World E) c w' :
  main cfg w = (SysExit c, w')
  ↔ c = 0%Z ∧ w' = w
    ∧ (new_videos_file w = None ∨ new_videos_file w = Some []).
Proof.
  split.
  - destruct (main_cases w) as [(vs & Hf & Hne)|Hno].
    + rewrite (main_eq cfg _ _ Hf Hne). intros Hexit. exfalso.
      revert Hexit. apply never_exits_bind; [apply never_exits_process_all|].
      intros eps. apply never_exits_bind.
      * by intros ???.
      * intros _ w1 c1 w1'. unfold generate_feed.
        destruct (negb _); [done|]. by destruct (forallb _ _).
    + rewrite main_no_input by done. by intros [= <- <-].
  - intros (-> & -> & Hno). by apply main_no_input.
Qed.


(** X16.  A run that goes through leaves new_videos.json as it was, writes
    episodes.json as the loaded catalog followed by the new episodes,
    which come in input order from records whose id was not in the
    loaded catalog, and rebuilds the feed from that full catalog (or
    leaves feed.xml alone when feedgen is missing). *)
Theorem main_completed_run (w : World E) w' :
  main cfg w = (Return (), w') →
  ∃ vs added,
    new_videos_file w = Some vs
    ∧ new_videos_file w' = Some vs
    ∧ episodes_file w' = Some (catalog w ++ added)
    ∧ (video_id <$> added)
        `sublist_of` (id <$> filter (λ v, id v ∉ video_id <$> catalog w) vs)
    ∧ feed_file w' = (if HAS_FEEDGEN cfg then Some (feed_of (catalog w ++ added))
                      else feed_file w).
Proof.
  intros (vs & eps & wa & Hvs & _ & Hloop & ->)%main_Return.
  pose proof (keeps_process_all cfg _ _ _ _ _ _ Hloop) as (Hnv & _ & Hfeed).
  apply process_all_appends in Hloop as (added & -> & Hsub).
  exists vs, added. simpl. rewrite Hnv, Hfeed.
  split; [done|]. split; [done|]. split; [done|]. split; [|done].
  erewrite list_filter_iff; [exact Hsub|].
  intros v. simpl. by rewrite elem_of_list_to_set.
Qed.

Lemma upload_result p i (w : World E) r w' :
  upload_to_b2 cfg p i w = (Return r, w') →
  r = if b2_configured cfg then Some (public_url cfg i) else None.
Proof.
  unfold upload_to_b2, b2_configured.
  destruct (HAS_B2 cfg); simpl; [|by intros [= <- _]].
  destruct (B2_APPLICATION_KEY_ID cfg) as [key_id|]; simpl; [|by intros [= <- _]].
  destruct (B2_APPLICATION_KEY cfg) as [app_key|]; simpl.
  2:{ rewrite andb_false_r. by intros [= <- _]. }
  destruct (_ && _); [|by intros [= <- _]].
  destruct (audio w !! p); [|done].
  destruct (b2_upload _ _ _ _ _ _) as [[] e]; [|done].
  intros [= <- _]. reflexivity.
Qed.

Lemma upload_skipped p i (w : World E) :
  b2_configured cfg = false → upload_to_b2 cfg p i w = (Return None, w).
Proof.
  unfold upload_to_b2, b2_configured.
  destruct (HAS_B2 cfg); simpl; [|done].
  destruct (B2_APPLICATION_KEY_ID cfg) as [key_id|]; simpl; [|done].
  destruct (B2_APPLICATION_KEY cfg) as [app_key|]; simpl.
  2:{ by rewrite andb_false_r. }
  by intros ->.
Qed.

(** X17.  An episode returned by [process_video] copies id, title,
    description and date from its record.  When the upload is
    configured, [audio_url] is the base URL followed by
    /episodes/<id>.mp3 and the audio file is gone; otherwise [audio_url]
    is null and the audio file is there with the size recorded in
    [file_size]. *)
Theorem episode_of_record video (w : World E) ep w' :
  process_video cfg video w = (Return (Some ep), w') →
  video_id ep = id video
  ∧ ep_title ep = title video
  ∧ ep_description ep = description video
  ∧ ep_published_at ep = published_at video
  ∧ audio_url ep = (if b2_configured cfg then Some (public_url cfg (id video))
                    else None)
  ∧ audio w' !! id video = (if b2_configured cfg then None
                            else Some (file_size ep)).
Proof.
  intros Hpv.
  assert (ep_title ep = title video ∧ ep_description ep = description video
          ∧ ep_published_at ep = published_at video) as (Ht & Hd & Hp).
  { revert Hpv. unfold process_video. intros (p & w1 & _ & Hk)%bind_Return.
    destruct p as [p|]; [|done]. destruct (negb _); [done|].
    apply bind_Return in Hk as (? & ? & _ & Hk).
    apply bind_Return in Hk as (? & ? & _ & Hk).
    apply bind_Return in Hk as (? & ? & _ & Hk).
    apply bind_Return in Hk as (? & ? & _ & Hk).
    apply bind_Return in Hk as (? & ? & _ & Hk).
    by injection Hk as <- _. }
  apply process_video_Some in Hpv
    as (w1 & w2 & w3 & w4 & Hd1 & Hex & Htag & Hu & Hn & Hid & Hsize & Hfin).
  pose proof (upload_result _ _ _ _ _ Hu) as Hurl.
  pose proof (upload_keeps_audio cfg _ _ _ _ _ Hu) as Ha3.
  pose proof (now_keeps_audio _ _ _ Hn) as Ha4.
  split; [done|]. split; [done|]. split; [done|]. split; [done|].
  split; [done|].
  assert (audio w4 !! id video = Some (file_size ep)) as Hsize4 by congruence.
  assert (exists_audio w4 (id video) = true) as Hex4.
  { unfold exists_audio. apply bool_decide_eq_true. by rewrite Hsize4. }
  rewrite Hex4, andb_true_r, Hurl in Hfin.
  destruct (b2_configured cfg); simpl in Hfin.
  - assert (str_truthy (public_url cfg (id video)) = true) as Htr.
    { unfold public_url. by destruct (default _ _). }
    rewrite Htr in Hfin. apply unlink_removes in Hfin.
    unfold exists_audio in Hfin. apply bool_decide_eq_false in Hfin.
    by apply eq_None_not_Some.
  - by subst w'.
Qed.






(** X19.  When the audio file of a record exists, [process_video] does not
    run yt-dlp: replacing the tool by any other gives the same result
    and the same world. *)
Theorem existing_audio_is_not_fetched_again other_yt_dlp video (w : World E) :
  exists_audio w (id video) = true →
  @process_video _ E
     {| yt_dlp := other_yt_dlp;
        mutagen_save := mutagen_save;
        b2_upload := b2_upload;
        utcnow := utcnow;
        feedgen_accepts := feedgen_accepts |} cfg video w
  = process_video cfg video w.
Proof.
  intros [size Hsize]%bool_decide_eq_true.
  unfold process_video, bind, download_audio. rewrite Hsize. reflexivity.
Qed.

Lemma keeps_audio_bind {A B} (m : M E A) (f : A → M E B) :
  keeps_audio m → (∀ a, keeps_audio (f a)) → keeps_audio (bind m f).
Proof.
  intros Hm Hf w o w' k Hb Hk.
  apply bind_cases in Hb as [(a & w1 & Hmw & Hfa)|[[Hmw _]|(c' & Hmw & _)]].
  - eapply Hf; [done|]. by eapply Hm.
  - by eapply Hm.
  - by eapply Hm.
Qed.

Lemma keeps_audio_ret {A} (a : A) : keeps_audio (ret a : M E A).
Proof. by intros w o w' k [= <- <-]. Qed.

Lemma is_Some_insert_keep (m : gmap pystr N) i x k :
  is_Some (m !! k) → is_Some (<[i := x]> m !! k).
Proof.
  intros Hk. destruct (decide (i = k)) as [->|Hne].
  - rewrite lookup_insert_eq. eauto.
  - by rewrite lookup_insert_ne.
Qed.

Lemma keeps_audio_process_video v :
  b2_configured cfg = false → keeps_audio (process_video cfg v).
Proof.
  intros Hoff. unfold process_video. apply keeps_audio_bind.
  { intros w o w' k. unfold download_audio.
    destruct (audio w !! id v); [by intros [= <- <-]|].
    destruct (yt_dlp _ _) as [[[[]|] [size|]] e]; intros [= <- <-] Hk; simpl;
      try done; by apply is_Some_insert_keep. }
  intros [p|]; [|apply keeps_audio_ret].
  intros w o w' k. destruct (negb _); [by intros [= <- <-]|]. revert w o w' k.
  apply keeps_audio_bind.
  { intros w o w' k. unfold tag_audio. destruct (negb _); [by intros [= <- <-]|].
    destruct (audio w !! p); [|by intros [= <- <-]].
    destruct (mutagen_save _ _ _) as [[size'|] e]; intros [= <- <-] Hk; simpl;
      try done; by apply is_Some_insert_keep. }
  intros _. apply keeps_audio_bind.
  { intros w o w' k. unfold stat_size.
    by destruct (audio w !! p); intros [= <- <-]. }
  intros size w o w' k Hb Hk.
  unfold bind at 1 in Hb. rewrite (upload_skipped _ _ _ Hoff) in Hb.
  apply bind_cases in Hb as [(t & w1 & Hn & Hrest)|[[Hn _]|(c' & Hn & _)]].
  2,3: by rewrite (now_keeps_audio _ _ _ Hn).
  rewrite <- (now_keeps_audio _ _ _ Hn) in Hk.
  unfold bind, ret in Hrest. simpl in Hrest. by injection Hrest as <- <-.
Qed.

(** X20.  When the upload is not configured, a run removes no audio file,
    however it ends. *)
Theorem nothing_deleted_without_upload (w : World E) o w' k :
  b2_configured cfg = false →
  main cfg w = (o, w') →
  is_Some (audio w !! k) → is_Some (audio w' !! k).
Proof.
  intros Hoff Hmain Hk.
  destruct (main_cases w) as [(vs & Hf & Hne)|Hno].
  2:{ rewrite main_no_input in Hmain by done. by injection Hmain as <- <-. }
  rewrite (main_eq cfg _ _ Hf Hne) in Hmain.
  assert (∀ existing eps, keeps_audio (process_all cfg existing vs eps)) as Hloop.
  { clear -Hoff. induction vs as [|v vs IH]; intros existing eps; simpl.
    - apply keeps_audio_ret.
    - destruct (decide _); [apply IH|].
      apply keeps_audio_bind; [by apply keeps_audio_process_video|].
      intros [ep|]; apply IH. }
  apply bind_cases in Hmain as [(eps & w1 & Hl & Hrest)|[[Hl _]|(c' & Hl & _)]].
  2,3: by eapply Hloop.
  rewrite (save_and_feed_keep_audio cfg _ _ _ _ Hrest).
  by eapply Hloop.
Qed.

End ProcessingMore.

Section FeedMore.
Import ProcessVideos.
Context `{Unicode}.

Lemma docket_truthy title d :
  docket (parse_case_info title) = Some d → str_truthy d = true.
Proof.
  change (parse_case_info title) with (Monitor.parse_case_info title).
  intros Hd.
  destruct (parse_docket_Some _ _ Hd) as (pre & ws & ds & nl & _ & Heq).
  rewrite Heq in Hd. by injection Hd as <-.
Qed.

(** X21.  The feed has one entry per episode of the catalog, episodes with a
    null [audio_url] included.  An entry has an enclosure exactly when
    [audio_url] is a non-empty string, and the enclosure carries that
    URL, the file size of the episode and the type audio/mpeg. *)
Theorem feed_has_one_entry_per_episode (episodes : list Episode) :
  entries (feed_of episodes) ≡ₚ feed_entry <$> episodes
  ∧ fe_id <$> entries (feed_of episodes) ≡ₚ video_id <$> episodes
  ∧ ∀ ep,
      (fe_enclosure (feed_entry ep) = None ↔ opt_truthy (audio_url ep) = false)
      ∧ ∀ url size mime,
          fe_enclosure (feed_entry ep) = Some (url, size, mime) →
          audio_url ep = Some url ∧ size = file_size ep
          ∧ mime = py "audio/mpeg".
Proof.
  assert (entries (feed_of episodes) ≡ₚ feed_entry <$> episodes) as Hperm.
  { by rewrite feed_of_entries, reverse_Permutation, sorted_reverse_perm. }
  split; [exact Hperm|]. split.
  - rewrite Hperm, <- list_fmap_compose. done.
  - intros ep. unfold feed_entry. simpl.
    destruct (audio_url ep) as [url|]; simpl; [|done].
    destruct (str_truthy url); [|done].
    split; [done|]. by intros ??? [= <- <- <-].
Qed.

(** X22.  An entry has an iTunes subtitle exactly when the title of its
    episode parses with a docket, and the subtitle is "Docket: "
    followed by the docket. *)
Theorem feed_subtitle_is_the_docket (ep : Episode) :
  fe_itunes_subtitle (feed_entry ep)
  = (λ d, py "Docket: " ++ d) <$> docket (parse_case_info (ep_title ep)).
Proof.
  unfold feed_entry. cbn [fe_itunes_subtitle].
  destruct (docket _) as [d|] eqn:Hd; [|done].
  by rewrite (docket_truthy _ _ Hd).
Qed.

(** X23.  The tags of a record are title, author, album and genre, then the
    year (the first four characters of the date) unless the date is
    empty, then a comment "Docket" holding the docket when the title
    parses with one. *)
Theorem frames_of_record (video_info : Video) :
  frames video_info
  = [TIT2 (title video_info); TPE1 PODCAST_AUTHOR; TALB PODCAST_TITLE;
     TCON (py "Podcast")]
    ++ match published_at video_info with
       | [] => []
       | _ => [TDRC (take 4 (published_at video_info))]
       end
    ++ match docket (parse_case_info (title video_info)) with
       | Some d => [COMM (py "eng") (py "Docket") d]
       | None => []
       end.
Proof.
  unfold frames. cbv zeta. f_equal. f_equal.
  - by destruct (published_at video_info).
  - destruct (docket _) as [d|] eqn:Hd; [|done].
    by rewrite (docket_truthy _ _ Hd).
Qed.

End FeedMore.

(** * More sample runs *)

Section DiscoveryMoreSamples.
Import Monitor.

(** Eighty videos asked for, fifty requested. *)
Lemma list_above_50_is_capped_witness :
  main api_key (channel ["a"]%string) (py "now") (list_args 80) None
  = main api_key (channel ["a"]%string) (py "now") (list_args 50) None.
Proof.
  apply (list_above_50_is_capped api_key (channel ["a"]%string) (py "now")
           (list_args 80) None 80); [lia|reflexivity].
Defined.

(** [--list 0 --init --json --all] is an init run. *)
Lemma list_zero_is_a_check_witness :
  main api_key (channel ["a"]%string) (py "now") (list_args 0) None
  = main api_key (channel ["a"]%string) (py "now") init_json_args None.
Proof.
  rewrite (list_zero_is_a_check api_key (channel ["a"]%string) (py "now")
             (list_args 0) None eq_refl).
  reflexivity.
Defined.

(** A list run with every other flag set, on a state that stays. *)
Lemma list_mode_only_reads_witness :
  let r := main api_key (channel ["a"]%string) (py "now") (list_args 5)
             (Some (seen ["b"]%string)) in
  state_file r = Some (seen ["b"]%string) ∧ ended r = Exit 0.
Proof.
  intros r.
  destruct (list_mode_only_reads api_key (channel ["a"]%string) (py "now")
              (list_args 5) (Some (seen ["b"]%string)) 5 eq_refl)
    as (Hstate & _ & Hend).
  split; [exact Hstate|]. exact (proj1 (Hend eq_refl)).
Defined.

(** A check without an API key. *)
Lemma fatal_errors_leave_state_witness :
  let r := main None (channel ["a"]%string) (py "now") check_args
             (Some (seen ["b"]%string)) in
  exit_status (ended r) = 1%Z ∧ state_file r = Some (seen ["b"]%string)
  ∧ stdout_json r = None.
Proof.
  apply (fatal_errors_leave_state None (channel ["a"]%string) (py "now")
           check_args (Some (seen ["b"]%string))).
  left. reflexivity.
Defined.

(** A check that finds one new upload. *)
Lemma plain_run_commits_witness :
  let r := main api_key (channel ["a"; "b"]%string) (py "now") check_args
             (Some (seen ["a"]%string)) in
  ∃ st, state_file r = Some st ∧ last_check st = Some (py "now")
    ∧ (∀ v, v ∈ video_of_item <$> (upload <$> ["a"; "b"]%string) → id v ∈ seen_ids st)
    ∧ check_for_new_videos (channel ["a"; "b"]%string) st = Some [].
Proof.
  apply (plain_run_commits api_key (channel ["a"; "b"]%string) (py "now")
           check_args (Some (seen ["a"]%string))); reflexivity.
Defined.

(** An all run on a channel whose first upload is already seen. *)
Lemma plain_all_run_appends_all_witness :
  let r := main api_key (channel ["a"; "b"]%string) (py "now") all_args
             (Some (seen ["a"]%string)) in
  seen_ids (load_state (state_file r)) = [py "a"; py "a"; py "b"]
  ∧ ¬ NoDup (seen_ids (load_state (state_file r))).
Proof.
  intros r.
  destruct (plain_all_run_appends_all api_key (channel ["a"; "b"]%string)
              (py "now") all_args (Some (seen ["a"]%string))
              (video_of_item <$> (upload <$> ["a"; "b"]%string))
              eq_refl eq_refl eq_refl eq_refl eq_refl eq_refl) as [Hnew Hdup].
  split; [exact Hnew|]. apply Hdup.
  exists (video_of_item (upload "a")). split; left.
Defined.

(** A JSON check that finds one new upload. *)
Lemma check_exit_status_witness :
  let r := main api_key (channel ["a"; "b"]%string) (py "now") check_json_args
             (Some (seen ["a"]%string)) in
  ended r = Exit 0
  ∧ stdout_json r = Some [video_of_item (upload "b")].
Proof.
  intros r.
  destruct (check_exit_status api_key (channel ["a"; "b"]%string) (py "now")
              check_json_args (Some (seen ["a"]%string))
              (video_of_item <$> (upload <$> ["a"; "b"]%string))
              eq_refl eq_refl eq_refl eq_refl eq_refl) as (Hnew & _ & Hout).
  split.
  - apply Hnew. exists (video_of_item (upload "b")). split.
    + right. left.
    + intros Hin%list_elem_of_singleton. discriminate Hin.
  - exact (Hout eq_refl).
Defined.

End DiscoveryMoreSamples.

Section ParseMoreSamples.

(** The docket of the sample title of the specification. *)
Lemma docket_format_witness :
  let title := py "Commonwealth v. X, SJC-13444" in
  docket (@Monitor.parse_case_info basic_latin title) = Some (py "SJC-13444")
  ∧ py "SJC-13444" `suffix_of` title.
Proof.
  intros title.
  assert (docket (@Monitor.parse_case_info basic_latin title)
          = Some (py "SJC-13444")) as Hd by reflexivity.
  split; [exact Hd|].
  destruct (@docket_format basic_latin title _ Hd) as [_ [Hs|Hs]]; [exact Hs|].
  exfalso. destruct Hs as [k Hk].
  apply (f_equal last) in Hk. rewrite !app_assoc, last_snoc in Hk.
  discriminate Hk.
Defined.

(** A docket number without a comma before it. *)
Lemma title_without_comma_has_no_docket_witness :
  @Monitor.parse_case_info basic_latin (py "Annual State SJC-13444")
  = {| case_name := py "Annual State SJC-13444"; docket := None |}.
Proof.
  apply (@title_without_comma_has_no_docket basic_latin).
  intros Hin. vm_compute in Hin.
  repeat (apply elem_of_cons in Hin as [Hin|Hin]; [discriminate Hin|]).
  by apply elem_of_nil in Hin.
Defined.

(** Padding around the case part. *)
Lemma case_name_is_trimmed_witness :
  let title := py " Doe v. Roe ,  SJC-007" in
  docket (@Monitor.parse_case_info basic_latin title) = Some (py "SJC-007")
  ∧ ∃ before after,
      title = before ++ case_name (@Monitor.parse_case_info basic_latin title)
                ++ after.
Proof.
  intros title.
  assert (docket (@Monitor.parse_case_info basic_latin title)
          = Some (py "SJC-007")) as Hd by reflexivity.
  split; [exact Hd|].
  exact (proj2 (proj2 (@case_name_is_trimmed basic_latin title _ Hd))).
Defined.

(** The padded title and its normal form. *)
Lemma parse_case_info_round_trip_witness :
  let title := py " Doe v. Roe ,  SJC-007" in
  @Monitor.parse_case_info basic_latin (py "Doe v. Roe, SJC-007")
  = @Monitor.parse_case_info basic_latin title.
Proof.
  intros title.
  apply (@parse_case_info_round_trip basic_latin title (py "SJC-007"));
    [reflexivity|discriminate].
Defined.

(** A title on two lines. *)
Lemma newline_before_last_comma_blocks_match_witness :
  docket (@Monitor.parse_case_info basic_latin
            (py "Doe" ++ newline :: py "v. Roe, SJC-007")) = None.
Proof.
  rewrite (@newline_before_last_comma_blocks_match basic_latin (py "Doe")
             (py "v. Roe, SJC-007")); [reflexivity|].
  vm_compute. do 6 right. left.
Defined.

End ParseMoreSamples.

Section ProcessingMoreSamples.
Import ProcessVideos.

(** An empty input list. *)
Lemma main_exits_only_without_input_witness :
  @main basic_latin unit steady cfg_local (fresh [] ())
  = (SysExit 0, fresh [] ()).
Proof.
  apply (@main_exits_only_without_input basic_latin unit steady cfg_local).
  split; [reflexivity|]. split; [reflexivity|]. right. reflexivity.
Defined.


(** A tagger that raises: nothing is saved. *)
Lemma tagger_exception_saves_nothing :
  let r := @main basic_latin unit broken_tagger cfg_local (fresh [video "a"] ()) in
  r.1 = Raise ∧ episodes_file r.2 = None ∧ feed_file r.2 = None.
Proof. vm_compute. done. Qed.

(** One record into an empty catalog. *)
Lemma main_completed_run_witness :
  let w := fresh [video "a"] () in
  let r := @main basic_latin unit steady cfg_local w in
  r.1 = Return ()
  ∧ ∃ added, episodes_file r.2 = Some (catalog w ++ added)
      ∧ feed_file r.2 = Some (@feed_of basic_latin (catalog w ++ added)).
Proof.
  intros w r.
  assert (r = (Return (), r.2)) as Hr by (vm_compute; reflexivity).
  split; [by rewrite Hr|].
  destruct (@main_completed_run basic_latin unit steady cfg_local _ _ Hr)
    as (vs & added & _ & _ & He & _ & Hf).
  exists added. split; [exact He|exact Hf].
Defined.

(** A record that is fetched, tagged and uploaded. *)
Lemma episode_of_record_witness :
  ∃ ep w',
    @process_video basic_latin unit steady cfg_b2 (video "a")
      (fresh [video "a"] ()) = (Return (Some ep), w')
    ∧ audio_url ep
      = Some (py "https://f000.backblazeb2.com/file/sjc-podcast/episodes/a.mp3")
    ∧ audio w' !! py "a" = None.
Proof.
  assert (∃ ep w',
    @process_video basic_latin unit steady cfg_b2 (video "a")
      (fresh [video "a"] ()) = (Return (Some ep), w')) as (ep & w' & Hpv)
    by (vm_compute; eauto).
  exists ep, w'. split; [exact Hpv|].
  destruct (@episode_of_record basic_latin unit steady cfg_b2 _ _ _ _ Hpv)
    as (_ & _ & _ & _ & Hurl & Hgone).
  split; [exact Hurl|exact Hgone].
Defined.


(** A record whose audio is there, with a yt-dlp that cannot start. *)
Lemma existing_audio_is_not_fetched_again_witness :
  let w := with_audio [video "a"] "a" 7 in
  @process_video basic_latin unit broken_tagger cfg_local (video "a") w
  = @process_video basic_latin unit
      {| yt_dlp := λ _ e, (None, None, e);
         mutagen_save := @mutagen_save unit broken_tagger;
         b2_upload := @b2_upload unit broken_tagger;
         utcnow := @utcnow unit broken_tagger;
         feedgen_accepts := @feedgen_accepts unit broken_tagger |}
      cfg_local (video "a") w.
Proof.
  intros w. symmetry.
  apply (@existing_audio_is_not_fetched_again basic_latin unit broken_tagger
           cfg_local (λ _ e, (None, None, e)) (video "a") w).
  reflexivity.
Defined.

(** A run without b2sdk. *)
Lemma nothing_deleted_without_upload_witness :
  let w := with_audio [video "a"] "a" 7 in
  is_Some (audio (@main basic_latin unit steady cfg_local w).2 !! py "a").
Proof.
  intros w.
  apply (@nothing_deleted_without_upload basic_latin unit steady cfg_local
           w _ _ (py "a") eq_refl (surjective_pairing _)).
  exists 7. reflexivity.
Defined.

End ProcessingMoreSamples.
